(** * Design-Patterns: the Composite traversal and the Visitor dispatch

    A shallow embedding of [structural_pattern::Component], [Leaf], [Leaf2],
    [Composite] (src/src/structural_pattern.cpp) and of
    [behavioral_pattern::Visitor], [Element] and their concrete classes
    (src/src/behavioral_pattern.cpp).

    Objects live in a heap indexed by their address, because the program
    passes [Component*] around, compares pointers in [Composite::remove] and
    prints [this] in [Leaf::show].  Member functions are state transformers
    over a world made of that heap and of what has been written to
    [std::cout]. *)

From stdpp Require Import base gmap list strings.

Set Warnings "-register-all".

(** ** Data model *)

(** A [Component*]: the address of an object.  A pointer with no object in the
    heap is null or dangling. *)
Definition ptr := N.
Bind Scope N_scope with ptr.

Definition nullptr : ptr := 0%N.

(** The dynamic class of an object together with its data members.  Only
    [Composite] has one: [std::vector<Component*> m_children]. *)
Inductive Component : Type :=
  | Leaf
  | Leaf2
  | Composite (m_children : list ptr).

(** One insertion into [std::cout]. *)
Inductive token : Type :=
  | Str (s : string)   (* << "literal" *)
  | Size (n : nat)     (* << m_children.size() *)
  | Addr (p : ptr)     (* << this *)
  | Endl.              (* << std::endl *)

Record world : Type := World {
  heap : gmap N Component;
  cout : list token
}.

(** ** Computations *)

(** [Fault] is undefined behaviour of the C++ program (a call through a
    pointer with no object of the expected class); [Timeout] is the model
    running out of fuel, i.e. a recursion deeper than the fuel given. *)
Inductive outcome (A : Type) : Type :=
  | Ok (a : A) (w : world)
  | Fault
  | Timeout.

Arguments Ok {A} a w.
Arguments Fault {A}.
Arguments Timeout {A}.

Definition M (A : Type) : Type := world -> outcome A.

Definition ret {A} (a : A) : M A := fun w => Ok a w.

Definition bind {A B} (m : M A) (k : A -> M B) : M B :=
  fun w =>
    match m w with
    | Ok a w' => k a w'
    | Fault => Fault
    | Timeout => Timeout
    end.

Declare Scope cpp_scope.
Delimit Scope cpp_scope with cpp.
Notation "'let*' x := m 'in' k" := (bind m (fun x => k))
  (at level 10, x name, m at level 100, k at level 200) : cpp_scope.
Notation "m ;; k" := (bind m (fun _ => k))
  (at level 100, k at level 200, right associativity) : cpp_scope.
Open Scope cpp_scope.

Definition fault {A} : M A := fun _ => Fault.
Definition timeout {A} : M A := fun _ => Timeout.

(** [*p]: the object a pointer designates. *)
Definition deref (p : ptr) : M Component :=
  fun w =>
    match heap w !! p with
    | Some o => Ok o w
    | None => Fault
    end.

(** [std::cout << t1 << t2 << ...]. *)
Definition print (ts : list token) : M unit :=
  fun w => Ok tt (World (heap w) (cout w ++ ts)).

(** Assignment to the object at [p]. *)
Definition store (p : ptr) (o : Component) : M unit :=
  fun w => Ok tt (World (<[p:=o]> (heap w)) (cout w)).

(** [new T()], where [a] is the address the allocator hands out: not null and
    not the address of a live object. *)
Definition new_ (o : Component) (a : ptr) : M ptr :=
  fun w =>
    if decide (a = nullptr) then Fault
    else match heap w !! a with
         | Some _ => Fault
         | None => Ok a (World (<[a:=o]> (heap w)) (cout w))
         end.

(** [this->m_children] inside a member function of [Composite]. *)
Definition get_m_children (this : ptr) : M (list ptr) :=
  let* o := deref this in
  match o with
  | Composite m_children => ret m_children
  | _ => fault
  end.

(** ** The Composite pattern *)

Module structural_pattern.

(** The loop [for (auto it = v.begin(); it != v.end(); it++)] running [body]
    on each element in turn. *)
Fixpoint for_each (body : ptr -> M unit) (v : list ptr) : M unit :=
  match v with
  | [] => ret tt
  | c :: v' => body c ;; for_each body v'
  end.

Definition Leaf_show (this : ptr) : M unit :=
  print [Str "Leaf "; Addr this; Endl].

Definition Leaf2_show (this : ptr) : M unit :=
  print [Str "Leaf2 "; Addr this; Endl].

(** [Component::show] is virtual: the call [p->show()] runs the override of
    the dynamic class of [*p].  [Composite::show] calls [show] on its
    children, so the recursion is on [fuel], one unit per nested call.  The
    loop runs over [m_children] as read on entry; no call made from the loop
    writes to the heap ([show_heap] below), so this is the vector the C++
    iterator walks. *)
Fixpoint show (fuel : nat) (this : ptr) : M unit :=
  match fuel with
  | O => timeout
  | S fuel' =>
      let* o := deref this in
      match o with
      | Leaf => Leaf_show this
      | Leaf2 => Leaf2_show this
      | Composite m_children =>
          print [Str "Size:"; Size (length m_children); Endl] ;;
          for_each (show fuel') m_children
      end
  end.

(** [m_children.push_back(c)] *)
Definition add (this : ptr) (c : ptr) : M unit :=
  let* m_children := get_m_children this in
  store this (Composite (m_children ++ [c])).

(** [std::find(v.begin(), v.end(), c)] as the index of the iterator it
    returns; [length v] is [v.end()]. *)
Fixpoint find (v : list ptr) (c : ptr) : nat :=
  match v with
  | [] => 0
  | x :: v' => if decide (x = c) then 0 else S (find v' c)
  end.

(** [v.erase(it)] for an iterator [it] other than [v.end()]. *)
Definition erase (v : list ptr) (it : nat) : list ptr := delete it v.

Definition remove (this : ptr) (c : ptr) : M unit :=
  let* m_children := get_m_children this in
  let it := find m_children c in
  if decide (it ≠ length m_children)
  then store this (Composite (erase m_children it))
  else ret tt.

(** Returns the vector by value. *)
Definition getChildren (this : ptr) : M (list ptr) :=
  get_m_children this.

End structural_pattern.

(** The body of [composite()] in src/src/main.cpp; the arguments are the
    addresses returned by the seven [new] expressions, in evaluation order. *)
Definition main_composite (a1 a2 a3 a4 a5 a6 a7 : ptr) (fuel : nat) : M unit :=
  let add := structural_pattern.add in
  let* tree := new_ (Composite []) a1 in
  let* l := new_ Leaf a2 in add tree l ;;
  let* l := new_ Leaf a3 in add tree l ;;
  let* l := new_ Leaf2 a4 in add tree l ;;
  let* tree2 := new_ (Composite []) a5 in
  add tree tree2 ;;
  let* l := new_ Leaf a6 in add tree2 l ;;
  let* l := new_ Leaf2 a7 in add tree2 l ;;
  structural_pattern.show fuel tree.

(** ** The Visitor pattern *)

Module behavioral_pattern.

(** The dynamic class of a visitor, resp. element, object.  Neither has data
    members. *)
Inductive Visitor : Type := ConcreteVisitor1 | ConcreteVisitor2.
Inductive Element : Type := ConcreteElement1 | ConcreteElement2.

(** The four overrides of [Visitor::visit].  None of them uses its argument
    [e], which is left out. *)
Definition ConcreteVisitor1_visit_ConcreteElement1 : M unit :=
  print [Str "ConcreteVisitor1 visit concrete element1"; Endl].
Definition ConcreteVisitor1_visit_ConcreteElement2 : M unit :=
  print [Str "ConcreteVisitor1 visit concrete element2"; Endl].
Definition ConcreteVisitor2_visit_ConcreteElement1 : M unit :=
  print [Str "ConcreteVisitor2 visit concrete element1"; Endl].
Definition ConcreteVisitor2_visit_ConcreteElement2 : M unit :=
  print [Str "ConcreteVisitor2 visit concrete element2"; Endl].

(** [v->visit(e)] for [e] of static type [ConcreteElement1*]: the overload is
    fixed at compile time, the override is chosen by the class of [*v]. *)
Definition visit_ConcreteElement1 (v : Visitor) : M unit :=
  match v with
  | ConcreteVisitor1 => ConcreteVisitor1_visit_ConcreteElement1
  | ConcreteVisitor2 => ConcreteVisitor2_visit_ConcreteElement1
  end.

(** [v->visit(e)] for [e] of static type [ConcreteElement2*]. *)
Definition visit_ConcreteElement2 (v : Visitor) : M unit :=
  match v with
  | ConcreteVisitor1 => ConcreteVisitor1_visit_ConcreteElement2
  | ConcreteVisitor2 => ConcreteVisitor2_visit_ConcreteElement2
  end.

(** In [ConcreteElement1::accept], [this] is a [ConcreteElement1*]. *)
Definition ConcreteElement1_accept (v : Visitor) : M unit :=
  visit_ConcreteElement1 v.

Definition ConcreteElement2_accept (v : Visitor) : M unit :=
  visit_ConcreteElement2 v.

(** [e->accept(v)], virtual on the class of [*e]. *)
Definition accept (e : Element) (v : Visitor) : M unit :=
  match e with
  | ConcreteElement1 => ConcreteElement1_accept v
  | ConcreteElement2 => ConcreteElement2_accept v
  end.

(** The body of [visitor()] in src/src/main.cpp. *)
Definition main_visitor : M unit :=
  let v1 := ConcreteVisitor1 in
  let v2 := ConcreteVisitor2 in
  let e1 := ConcreteElement1 in
  let e2 := ConcreteElement2 in
  accept e1 v1 ;; accept e1 v2 ;; accept e2 v1 ;; accept e2 v2.

End behavioral_pattern.

Import structural_pattern.

(** ** Trees held in the heap *)

(** A finite tree of [Leaf], [Leaf2] and [Composite] nodes; a leaf carries its
    address, which is what [Leaf::show] prints. *)
Inductive tree : Type :=
  | TLeaf (a : ptr)
  | TLeaf2 (a : ptr)
  | TComposite (ts : list tree).

(** [tree_at h p t]: following the child pointers from [p] through [h] spells
    out the finite tree [t].  No such [t] exists when a pointer under [p] is
    null or dangling, or when a composite is reachable from itself. *)
Inductive tree_at (h : gmap N Component) : ptr -> tree -> Prop :=
  | tree_at_Leaf p :
      h !! p = Some Leaf -> tree_at h p (TLeaf p)
  | tree_at_Leaf2 p :
      h !! p = Some Leaf2 -> tree_at h p (TLeaf2 p)
  | tree_at_Composite p cs ts :
      h !! p = Some (Composite cs) ->
      Forall2 (tree_at h) cs ts ->
      tree_at h p (TComposite ts).

(** Number of nested [show] calls a traversal of the tree makes. *)
Fixpoint depth (t : tree) : nat :=
  match t with
  | TLeaf _ | TLeaf2 _ => 1
  | TComposite ts => S (foldr (fun t d => Nat.max (depth t) d) 0 ts)
  end.

Definition size_line (n : nat) : list token := [Str "Size:"; Size n; Endl].
Definition leaf_line (a : ptr) : list token := [Str "Leaf "; Addr a; Endl].
Definition leaf2_line (a : ptr) : list token := [Str "Leaf2 "; Addr a; Endl].

(** The rendering as the specification words it: the depth-first pre-order
    linearization, where an interior node contributes the count of its
    immediate children and then the renderings of its children in order. *)
Fixpoint preorder (t : tree) : list token :=
  match t with
  | TLeaf a => leaf_line a
  | TLeaf2 a => leaf2_line a
  | TComposite ts => size_line (length ts) ++ concat (map preorder ts)
  end.

(** The structure of a tree alone: node kinds and child order. *)
Inductive shape : Type :=
  | SLeaf
  | SLeaf2
  | SComposite (ss : list shape).

Fixpoint shape_of (t : tree) : shape :=
  match t with
  | TLeaf _ => SLeaf
  | TLeaf2 _ => SLeaf2
  | TComposite ts => SComposite (map shape_of ts)
  end.

(** The output with every printed address blanked. *)
Definition blank (t : token) : token :=
  match t with
  | Addr _ => Addr nullptr
  | _ => t
  end.

(** ** Scenarios of the specification *)

(** [root = Composite(); root.add(Leaf()); root.add(Leaf());
    child = Composite(); root.add(child); child.add(LeafVariant2());
    root.render()], with the addresses of the five objects. *)
Definition end_to_end (a_root a_l1 a_l2 a_child a_l3 : ptr) (fuel : nat)
  : M unit :=
  let* root := new_ (Composite []) a_root in
  let* l1 := new_ Leaf a_l1 in add root l1 ;;
  let* l2 := new_ Leaf a_l2 in add root l2 ;;
  let* child := new_ (Composite []) a_child in
  add root child ;;
  let* l3 := new_ Leaf2 a_l3 in add child l3 ;;
  show fuel root.

(** A composite that receives an empty composite and then two leaves, and is
    rendered. *)
Definition nesting (root inner l1 l2 : ptr) (fuel : nat) : M unit :=
  add root inner ;; add root l1 ;; add root l2 ;; show fuel root.

Import behavioral_pattern.

(** The text each (visitor, element) operation prints. *)
Definition operation_text (v : Visitor) (e : Element) : string :=
  match v, e with
  | ConcreteVisitor1, ConcreteElement1 => "ConcreteVisitor1 visit concrete element1"
  | ConcreteVisitor1, ConcreteElement2 => "ConcreteVisitor1 visit concrete element2"
  | ConcreteVisitor2, ConcreteElement1 => "ConcreteVisitor2 visit concrete element1"
  | ConcreteVisitor2, ConcreteElement2 => "ConcreteVisitor2 visit concrete element2"
  end.

(** The operation registered for a pair: the override of [visit] that the
    visitor's class declares for the element's class. *)
Definition registered (e : Element) (v : Visitor) : M unit :=
  match v, e with
  | ConcreteVisitor1, ConcreteElement1 => ConcreteVisitor1_visit_ConcreteElement1
  | ConcreteVisitor1, ConcreteElement2 => ConcreteVisitor1_visit_ConcreteElement2
  | ConcreteVisitor2, ConcreteElement1 => ConcreteVisitor2_visit_ConcreteElement1
  | ConcreteVisitor2, ConcreteElement2 => ConcreteVisitor2_visit_ConcreteElement2
  end.

(** What a run appended to [std::cout]. *)
Definition emits {A} (m : M A) (w : world) (out : list token) : Prop :=
  exists a, m w = Ok a (World (heap w) (cout w ++ out)).

(** ** Child pointers *)

(** [child_of h c p]: in [h], [p] is a composite and [c] is one of its
    children.  Its transitive closure is "[c] is a descendant of [p]". *)
Definition child_of (h : gmap N Component) (c p : ptr) : Prop :=
  exists cs, h !! p = Some (Composite cs) /\ c ∈ cs.

(** ** Other patterns of the two files *)

(** What the patterns below insert into [std::cout]: the insertions of
    [token], and [<< i] for an [int]. *)
Inductive item : Type :=
  | Tok (t : token)
  | Num (i : Z).

(** Outcome of a member function that recurses or loops: [Undefined] is
    undefined behaviour of the C++ program, [OutOfFuel] the model running
    out of fuel.  Member functions that neither recurse nor loop without
    bound return an [option], [None] being undefined behaviour. *)
Inductive result (A : Type) : Type :=
  | Returns (a : A)
  | Undefined
  | OutOfFuel.

Arguments Returns {A} a.
Arguments Undefined {A}.
Arguments OutOfFuel {A}.

(** *** Observer (src/src/behavioral_pattern.cpp) *)

Module observer.

(** The dynamic class of a subscriber object; no data members. *)
Inductive Subscriber : Type := ConcreteSubscriber1 | ConcreteSubscriber2.

(** [Subscriber::update], virtual. *)
Definition update (this : Subscriber) (i : Z) : list item :=
  match this with
  | ConcreteSubscriber1 => [Tok (Str "subscriber1 :"); Num i; Tok Endl]
  | ConcreteSubscriber2 => [Tok (Str "subscriber2 :"); Num i; Tok Endl]
  end.

Record Publisher : Type := { m_subscribers : list ptr }.

(** The loop of [Publisher::notify] over the rest [v] of the vector; [objs]
    are the live subscriber objects. *)
Fixpoint notify_loop (objs : gmap N Subscriber) (v : list ptr) (i : Z)
  : option (list item) :=
  match v with
  | [] => Some []
  | s :: v' =>
      match objs !! s with
      | None => None
      | Some o =>
          match notify_loop objs v' i with
          | None => None
          | Some out => Some (update o i ++ out)
          end
      end
  end.

Definition notify (objs : gmap N Subscriber) (this : Publisher) (i : Z)
  : option (list item) :=
  notify_loop objs (m_subscribers this) i.

Definition subscribe (this : Publisher) (s : ptr) : Publisher :=
  {| m_subscribers := m_subscribers this ++ [s] |}.

(** The loop of [Publisher::unsubscribe]: at the first element equal to [s]
    it erases that element and returns. *)
Fixpoint unsubscribe_loop (v : list ptr) (s : ptr) : list ptr :=
  match v with
  | [] => []
  | x :: v' => if decide (x = s) then v' else x :: unsubscribe_loop v' s
  end.

Definition unsubscribe (this : Publisher) (s : ptr) : Publisher :=
  {| m_subscribers := unsubscribe_loop (m_subscribers this) s |}.

End observer.

(** *** Iterator (src/src/behavioral_pattern.cpp) *)

Module iterator.

Record ConcreteCollection : Type := { m_data : list Z }.

Record ConcreteIterator : Type := { m_collection : ptr; m_i : nat }.

(** [ConcreteCollection::createIterator] (src/src/main.cpp) constructs an
    iterator on [this] with [m_i = 0]. *)
Definition createIterator (this : ptr) : ConcreteIterator :=
  {| m_collection := this; m_i := 0 |}.

(** [colls] are the live collections. *)
Definition hasMore (colls : gmap N ConcreteCollection)
  (this : ConcreteIterator) : option bool :=
  match colls !! m_collection this with
  | None => None
  | Some c => Some (bool_decide (m_i this < length (m_data c)))
  end.

(** Returns the value and the iterator after the call.  [m_data[m_i]] out
    of range would be undefined. *)
Definition getNext (colls : gmap N ConcreteCollection)
  (this : ConcreteIterator) : option (Z * ConcreteIterator) :=
  match hasMore colls this with
  | None => None
  | Some true =>
      match colls !! m_collection this with
      | None => None
      | Some c =>
          match m_data c !! m_i this with
          | None => None
          | Some x =>
              Some (x, {| m_collection := m_collection this;
                          m_i := S (m_i this) |})
          end
      end
  | Some false => Some (0%Z, this)
  end.

(** The loop of [iterator()] in src/src/main.cpp:
    [while (iter->hasMore()) std::cout << iter->getNext() << std::endl;]. *)
Fixpoint print_all (fuel : nat) (colls : gmap N ConcreteCollection)
  (iter : ConcreteIterator) : result (list item * ConcreteIterator) :=
  match fuel with
  | O => OutOfFuel
  | S fuel' =>
      match hasMore colls iter with
      | None => Undefined
      | Some false => Returns ([], iter)
      | Some true =>
          match getNext colls iter with
          | None => Undefined
          | Some (x, iter') =>
              match print_all fuel' colls iter' with
              | Returns (out, iter'') =>
                  Returns ([Num x; Tok Endl] ++ out, iter'')
              | Undefined => Undefined
              | OutOfFuel => OutOfFuel
              end
          end
      end
  end.

End iterator.

(** *** Memento (src/src/behavioral_pattern.cpp) *)

Module memento.

(** The largest [int]; incrementing it is undefined. *)
Definition INT_MAX : Z := 2147483647.

Record GameMemento : Type := { m_data : Z }.

Definition getData (this : GameMemento) : Z := m_data this.

(** [GameOriginator]; its data member is [m_data] in the source. *)
Record GameOriginator : Type := { originator_m_data : Z }.

(** [std::cout << "play : " << m_data++ << std::endl]: the value printed is
    the one before the increment. *)
Definition play (this : GameOriginator)
  : option (list item * GameOriginator) :=
  if decide (originator_m_data this = INT_MAX) then None
  else Some ([Tok (Str "play : "); Num (originator_m_data this); Tok Endl],
             {| originator_m_data := (originator_m_data this + 1)%Z |}).

Definition save (this : GameOriginator) : GameMemento :=
  {| m_data := originator_m_data this |}.

Definition restore (this : GameOriginator) (m : GameMemento)
  : GameOriginator :=
  {| originator_m_data := getData m |}.

(** [GameCaretaker]: [std::stack<GameMemento> m_history], the top first. *)
Record GameCaretaker : Type := { m_history : list GameMemento }.

Definition backup (this : GameCaretaker) (m : GameMemento) : GameCaretaker :=
  {| m_history := m :: m_history this |}.

(** [top()] and [pop()] on an empty stack are undefined. *)
Definition undo (this : GameCaretaker)
  : option (GameMemento * GameCaretaker) :=
  match m_history this with
  | [] => None
  | m :: rest => Some (m, {| m_history := rest |})
  end.

(** [n] calls of [play] in a row. *)
Fixpoint plays (n : nat) (this : GameOriginator)
  : option (list item * GameOriginator) :=
  match n with
  | O => Some ([], this)
  | S n' =>
      match play this with
      | None => None
      | Some (out, this') =>
          match plays n' this' with
          | None => None
          | Some (out', this'') => Some (out ++ out', this'')
          end
      end
  end.

(** [history.backup(game.save()); game.play(); ...(n times);
    game.restore(history.undo());] as in [memento()] of src/src/main.cpp. *)
Definition checkpoint_plays_rollback (n : nat) (history : GameCaretaker)
  (game : GameOriginator)
  : option (list item * GameCaretaker * GameOriginator) :=
  let history := backup history (save game) in
  match plays n game with
  | None => None
  | Some (out, game) =>
      match undo history with
      | None => None
      | Some (m, history) => Some (out, history, restore game m)
      end
  end.

End memento.

(** *** Flyweight (src/src/structural_pattern.cpp) *)

Module flyweight.

(** A factory, i.e. its [m_cats], together with the [ConcreteCat] objects
    that are live, each with its [m_texture]. *)
Record CatFactory : Type := {
  cats : gmap N string;
  m_cats : list ptr
}.

(** The loop of [CatFactory::getCat] over the rest [v] of [m_cats]:
    [Some (Some p)] when it returns [p], [Some None] when it runs to the
    end, [None] when an element designates no cat. *)
Fixpoint getCat_loop (objs : gmap N string) (v : list ptr) (t : string)
  : option (option ptr) :=
  match v with
  | [] => Some None
  | p :: v' =>
      match objs !! p with
      | None => None
      | Some m_texture =>
          if decide (m_texture = t) then Some (Some p)
          else getCat_loop objs v' t
      end
  end.

(** [a] is the address [new ConcreteCat(t)] returns when it is reached: not
    null and not the address of a live cat. *)
Definition getCat (a : ptr) (this : CatFactory) (t : string)
  : option (ptr * CatFactory) :=
  match getCat_loop (cats this) (m_cats this) t with
  | None => None
  | Some (Some p) => Some (p, this)
  | Some None =>
      if decide (a = nullptr) then None
      else match cats this !! a with
           | Some _ => None
           | None => Some (a, {| cats := <[a:=t]> (cats this);
                                 m_cats := m_cats this ++ [a] |})
           end
  end.

End flyweight.

(** *** Chain of responsibility (src/src/behavioral_pattern.cpp) *)

Module chain.

(** The dynamic class of a handler object. *)
Inductive Handler_class : Type :=
  | BaseHandler
  | ConcreteHandler1
  | ConcreteHandler2.

(** A handler object: its class and the [m_next] of its [BaseHandler]
    part. *)
Record Handler : Type := { class_of : Handler_class; m_next : ptr }.


Definition canHandle : bool := true.

Definition prepend (out : list item) (r : result (list item))
  : result (list item) :=
  match r with
  | Returns out' => Returns (out ++ out')
  | Undefined => Undefined
  | OutOfFuel => OutOfFuel
  end.

(** [this->handle(i)], virtual; [BaseHandler::handle] forwards to [m_next]
    unless it is null, the concrete handlers print and then run
    [BaseHandler::handle]. *)
Fixpoint handle (fuel : nat) (hs : gmap N Handler) (this : ptr) (i : Z)
  : result (list item) :=
  match fuel with
  | O => OutOfFuel
  | S fuel' =>
      match hs !! this with
      | None => Undefined
      | Some o =>
          let BaseHandler_handle :=
            if decide (nullptr <> m_next o)
            then handle fuel' hs (m_next o) i
            else Returns [] in
          match class_of o with
          | BaseHandler => BaseHandler_handle
          | ConcreteHandler1 =>
              if canHandle
              then prepend [Tok (Str "handler1"); Tok Endl] BaseHandler_handle
              else Returns []
          | ConcreteHandler2 =>
              if canHandle
              then prepend [Tok (Str "handler2"); Tok Endl] BaseHandler_handle
              else Returns []
          end
      end
  end.

(** What each class prints when it handles. *)
Definition handler_line (c : Handler_class) : list item :=
  match c with
  | BaseHandler => []
  | ConcreteHandler1 => [Tok (Str "handler1"); Tok Endl]
  | ConcreteHandler2 => [Tok (Str "handler2"); Tok Endl]
  end.

(** [chain_at hs p cs]: from the live handler [p], following [m_next] up to
    a null pointer passes handlers of the classes [cs]. *)
Inductive chain_at (hs : gmap N Handler) : ptr -> list Handler_class -> Prop :=
  | chain_last p o :
      hs !! p = Some o -> m_next o = nullptr ->
      chain_at hs p [class_of o]
  | chain_next p o cs :
      hs !! p = Some o -> m_next o <> nullptr ->
      chain_at hs (m_next o) cs ->
      chain_at hs p (class_of o :: cs).

End chain.

(** The factory holds live cats of pairwise different textures. *)
Definition factory_ok (f : flyweight.CatFactory) : Prop :=
  exists ts,
    Forall2 (fun p t => flyweight.cats f !! p = Some t) (flyweight.m_cats f) ts
    /\ NoDup ts.

(** The lines [n] calls of [play] print from the counter value [d]. *)
Definition play_lines (d : Z) (n : nat) : list item :=
  concat (map (fun k => [Tok (Str "play : "); Num (d + Z.of_nat k); Tok Endl])
              (seq 0 n)).

(** Two composites holding each other. *)
Definition w_mutual : world :=
  World (list_to_map [(1, Composite [2]); (2, Composite [1])]%N) [].

(** Some live subscribers, collections, cats and handlers. *)
Definition subscribers_demo : gmap N observer.Subscriber :=
  list_to_map [(1, observer.ConcreteSubscriber1);
               (2, observer.ConcreteSubscriber2)]%N.

Definition collections_demo : gmap N iterator.ConcreteCollection :=
  list_to_map [(1%N, {| iterator.m_data := [1; 2; 3; 4; 5; 6; 7]%Z |})].

Definition factory_demo : flyweight.CatFactory :=
  {| flyweight.cats := list_to_map [(1%N, "black"); (2%N, "white")];
     flyweight.m_cats := [1; 2]%N |}.

Definition handlers_demo : gmap N chain.Handler :=
  list_to_map
    [(1%N, {| chain.class_of := chain.BaseHandler; chain.m_next := 2%N |});
     (2%N, {| chain.class_of := chain.ConcreteHandler1; chain.m_next := 3%N |});
     (3%N, {| chain.class_of := chain.ConcreteHandler2;
              chain.m_next := nullptr |})].

(** ** Concrete heaps *)

Definition w0 : world := World ∅ [].

(** The tree of the end-to-end scenario, at addresses 1 to 5. *)
Definition w_demo : world :=
  World (list_to_map [(1, Composite [2; 3; 4]); (2, Leaf); (3, Leaf);
                      (4, Composite [5]); (5, Leaf2)]%N) [].

Definition t_demo : tree :=
  TComposite [TLeaf 2; TLeaf 3; TComposite [TLeaf2 5]]%N.

(** Three levels of composites, the innermost empty. *)
Definition w_nested : world :=
  World (list_to_map [(1, Composite [2]); (2, Composite [3]);
                      (3, Composite [])]%N) [].

(** Two empty composites and two leaves, not yet linked. *)
Definition w_parts : world :=
  World (list_to_map [(1, Composite []); (2, Composite []); (3, Leaf);
                      (4, Leaf)]%N) [].

(** A composite that was added to itself. *)
Definition w_cycle : world :=
  World (list_to_map [(1, Composite [1])]%N) [].

(** The tree of [w_demo] again, in a heap with other composite addresses, an
    unrelated object and earlier output. *)
Definition w_demo' : world :=
  World (list_to_map [(10, Composite [2; 3; 11]); (2, Leaf); (3, Leaf);
                      (11, Composite [5]); (5, Leaf2); (7, Leaf2)]%N)
        [Str "before"; Endl].

(** A composite holding the same leaf twice, around a second one. *)
Definition w_twice : world :=
  World (list_to_map [(1, Composite [2; 3; 2]); (2, Leaf); (3, Leaf2)]%N) [].

(** ** General facts about the traversal *)

(** Builds the derivation of [tree_at] on a concrete heap. *)
Ltac tree_at_tac :=
  repeat match goal with
    | |- tree_at _ _ (TLeaf _) => apply tree_at_Leaf; reflexivity
    | |- tree_at _ _ (TLeaf2 _) => apply tree_at_Leaf2; reflexivity
    | |- tree_at _ _ (TComposite _) =>
        eapply tree_at_Composite; [reflexivity|]
    | |- Forall2 _ _ _ => constructor
    end.


(** A computation that only appends to [std::cout], the same tokens whatever
    was there before, and neither reads nor writes anything else but the
    heap, which it leaves as it was. *)
Definition appends_only (m : M unit) : Prop :=
  forall w u w', m w = Ok u w' ->
    exists out, w' = World (heap w) (cout w ++ out) /\
      forall c, m (World (heap w) c) = Ok tt (World (heap w) (c ++ out)).

Lemma world_eta w : World (heap w) (cout w) = w.
Proof. by destruct w. Qed.

Lemma appends_only_print ts : appends_only (print ts).
Proof.
  intros w u w' H. exists ts. unfold print in *. simpl.
  split; [congruence | done].
Qed.

Lemma appends_only_for_each body v :
  (forall c, appends_only (body c)) -> appends_only (for_each body v).
Proof.
  intros Hbody. induction v as [|c v IH]; intros w u w' H; simpl in *.
  - exists []. unfold ret in *. inversion H; subst.
    rewrite app_nil_r, world_eta. split; [done|].
    intros c. by rewrite app_nil_r.
  - unfold bind in H. destruct (body c w) as [[] w1| |] eqn:E1; try done.
    destruct (Hbody c _ _ _ E1) as (o1 & -> & Hc).
    destruct (IH _ _ _ H) as (o2 & -> & Hv). simpl in *.
    exists (o1 ++ o2). rewrite app_assoc. split; [done|].
    intros c0. unfold bind. rewrite Hc. specialize (Hv (c0 ++ o1)).
    rewrite Hv. by rewrite app_assoc.
Qed.

Lemma appends_only_show fuel p : appends_only (show fuel p).
Proof.
  revert p. induction fuel as [|fuel IH]; intros p w u w' H; [done|].
  simpl in H. unfold bind, deref in H.
  destruct (heap w !! p) as [o|] eqn:Hp; [|done].
  assert (Hd : forall c,
    show (S fuel) p (World (heap w) c) =
    match o with
    | Leaf => Leaf_show p
    | Leaf2 => Leaf2_show p
    | Composite m_children =>
        print (size_line (length m_children)) ;; for_each (show fuel) m_children
    end (World (heap w) c)).
  { intros c. simpl. unfold bind at 1, deref. simpl. by rewrite Hp. }
  destruct o as [| |cs].
  - destruct (appends_only_print _ _ _ _ H) as (out & -> & Hc).
    exists out. split; [done|]. intros c. rewrite Hd. apply Hc.
  - destruct (appends_only_print _ _ _ _ H) as (out & -> & Hc).
    exists out. split; [done|]. intros c. rewrite Hd. apply Hc.
  - simpl in H.
    destruct (appends_only_for_each (show fuel) cs IH _ _ _ H)
      as (out & -> & Hc). simpl in *.
    exists (size_line (length cs) ++ out). rewrite app_assoc.
    split; [done|]. intros c. rewrite Hd. unfold bind, print. simpl.
    rewrite Hc. by rewrite <- app_assoc.
Qed.

(** [show] is read-only on the heap. *)
Lemma show_heap fuel p w u w' : show fuel p w = Ok u w' -> heap w' = heap w.
Proof.
  intros H. by destruct (appends_only_show fuel p _ _ _ H) as (out & -> & _).
Qed.

(** More fuel does not change a run that returned. *)
Lemma for_each_mono (body body' : ptr -> M unit) v :
  (forall c w u w', body c w = Ok u w' -> body' c w = Ok u w') ->
  forall w u w', for_each body v w = Ok u w' -> for_each body' v w = Ok u w'.
Proof.
  intros Hb. induction v as [|c v IH]; intros w u w' H; simpl in *; [done|].
  unfold bind in *. destruct (body c w) as [u1 w1| |] eqn:E1; try done.
  rewrite (Hb _ _ _ _ E1). by apply IH.
Qed.

Lemma show_S fuel p w u w' :
  show fuel p w = Ok u w' -> show (S fuel) p w = Ok u w'.
Proof.
  revert p w u w'. induction fuel as [|fuel IH]; intros p w u w' H; [done|].
  change (show (S fuel) p w) with
    ((let* o := deref p in
      match o with
      | Leaf => Leaf_show p
      | Leaf2 => Leaf2_show p
      | Composite m_children =>
          print [Str "Size:"; Size (length m_children); Endl] ;;
          for_each (show fuel) m_children
      end) w) in H.
  change (show (S (S fuel)) p w) with
    ((let* o := deref p in
      match o with
      | Leaf => Leaf_show p
      | Leaf2 => Leaf2_show p
      | Composite m_children =>
          print [Str "Size:"; Size (length m_children); Endl] ;;
          for_each (show (S fuel)) m_children
      end) w).
  unfold bind at 1 in H. unfold bind at 1.
  destruct (deref p w) as [[| |cs] w1| |]; try done.
  unfold bind in *. simpl in *.
  eapply for_each_mono; [|exact H]. intros; by apply IH.
Qed.

Lemma show_mono fuel fuel' p w u w' :
  fuel <= fuel' -> show fuel p w = Ok u w' -> show fuel' p w = Ok u w'.
Proof.
  induction 1 as [|n _ IH]; [done|]. intros H. apply show_S. by apply IH.
Qed.

(** On a tree held in the heap, [show] with fuel for its depth returns and
    has appended the pre-order linearization. *)
Lemma for_each_show_trees fuel h cs ts :
  Forall2 (fun c t => forall w, heap w = h ->
             show fuel c w = Ok tt (World h (cout w ++ preorder t))) cs ts ->
  forall w, heap w = h ->
    for_each (show fuel) cs w
    = Ok tt (World h (cout w ++ concat (map preorder ts))).
Proof.
  induction 1 as [|c t cs ts Hc _ IH]; intros w Hw; simpl.
  - unfold ret. rewrite app_nil_r. subst h. by rewrite world_eta.
  - unfold bind. rewrite (Hc w Hw). rewrite IH by done. simpl.
    by rewrite app_assoc.
Qed.

Lemma max_depth_le (ts : list tree) n :
  foldr (fun t d => Nat.max (depth t) d) 0 ts <= n ->
  Forall (fun t => depth t <= n) ts.
Proof.
  induction ts as [|t ts IH]; simpl; intros H; constructor; [lia|].
  apply IH. lia.
Qed.

Lemma show_tree fuel : forall p t w,
  tree_at (heap w) p t -> depth t <= fuel ->
  show fuel p w = Ok tt (World (heap w) (cout w ++ preorder t)).
Proof.
  induction fuel as [|fuel IH]; intros p t w Ht Hd.
  { destruct t; simpl in Hd; lia. }
  simpl. unfold bind at 1, deref.
  inversion Ht as [q Hq|q Hq|q cs ts Hq Hcs]; subst; rewrite Hq; [done..|].
  unfold bind, print. simpl.
  rewrite (for_each_show_trees fuel (heap w) cs ts).
  - simpl. rewrite (Forall2_length _ _ _ Hcs). by rewrite <- app_assoc.
  - simpl in Hd. apply PeanoNat.Nat.succ_le_mono in Hd.
    apply max_depth_le in Hd.
    clear Hq Ht. induction Hcs as [|c t cs ts Hc _ IHcs]; [constructor|].
    inversion Hd; subst. constructor; [|by apply IHcs].
    intros w1 Hw1. rewrite <- Hw1 in Hc. rewrite (IH c t w1 Hc) by done.
    by rewrite Hw1.
  - done.
Qed.

(** A run that returned on a tree used at least the fuel of its depth and
    appended its pre-order linearization. *)
Lemma show_tree_inv fuel p t w u w' :
  tree_at (heap w) p t -> show fuel p w = Ok u w' ->
  w' = World (heap w) (cout w ++ preorder t).
Proof.
  intros Ht H.
  pose proof (show_mono fuel (Nat.max fuel (depth t)) p w u w'
                ltac:(lia) H) as H1.
  rewrite (show_tree _ p t w Ht) in H1 by lia. congruence.
Qed.

(** Structural induction on trees, with the hypothesis for every child. *)
Lemma tree_induction (P : tree -> Prop) :
  (forall a, P (TLeaf a)) ->
  (forall a, P (TLeaf2 a)) ->
  (forall ts, Forall P ts -> P (TComposite ts)) ->
  forall t, P t.
Proof.
  intros HL HL2 HC.
  fix IH 1. intros [a|a|ts]; [apply HL | apply HL2 |].
  apply HC. induction ts as [|t ts IHts]; constructor; [apply IH | apply IHts].
Qed.

(** Apart from the addresses printed, the linearization is decided by the
    structure. *)
Lemma blank_preorder_shape t1 : forall t2,
  shape_of t1 = shape_of t2 ->
  map blank (preorder t1) = map blank (preorder t2).
Proof.
  induction t1 as [a|a|ts IH] using tree_induction;
    intros [b|b|us] Hs; simpl in Hs; try done.
  injection Hs as Hs. simpl.
  assert (Hlen : length ts = length us).
  { apply (f_equal length) in Hs. by rewrite !length_map in Hs. }
  rewrite Hlen. do 3 f_equal.
  clear Hlen. revert us Hs.
  induction IH as [|t ts Ht _ IHts]; intros [|u us] Hs; simpl in *; try done.
  injection Hs as Hu Hs. rewrite !map_app. f_equal; [by apply Ht | by apply IHts].
Qed.

(** ** Facts about the operations of [Composite] *)

Lemma new_ok o a w :
  a <> nullptr -> heap w !! a = None ->
  new_ o a w = Ok a (World (<[a:=o]> (heap w)) (cout w)).
Proof.
  intros Hn Hf. unfold new_. rewrite Hf. by destruct (decide (a = nullptr)).
Qed.

Lemma get_m_children_ok this cs w :
  heap w !! this = Some (Composite cs) -> get_m_children this w = Ok cs w.
Proof. intros H. unfold get_m_children, bind, deref. by rewrite H. Qed.

Lemma add_ok this c cs w :
  heap w !! this = Some (Composite cs) ->
  add this c w
  = Ok tt (World (<[this:=Composite (cs ++ [c])]> (heap w)) (cout w)).
Proof.
  intros H. unfold add, bind. by rewrite (get_m_children_ok this cs w H).
Qed.

Lemma find_absent (v : list ptr) c : c ∉ v -> find v c = length v.
Proof.
  induction v as [|x v IH]; intros H; simpl; [done|].
  apply not_elem_of_cons in H as [Hx Hv].
  destruct (decide (x = c)); [congruence|]. by rewrite IH.
Qed.

Lemma find_present (v : list ptr) c :
  c ∈ v ->
  exists l1 l2, v = l1 ++ c :: l2 /\ (c ∉ l1) /\ find v c = length l1.
Proof.
  induction v as [|x v IH]; intros H; [by apply elem_of_nil in H|].
  simpl. destruct (decide (x = c)) as [->|Hne].
  - exists [], v. split; [done|]. split; [apply not_elem_of_nil | done].
  - apply elem_of_cons in H as [H|H]; [congruence|].
    destruct (IH H) as (l1 & l2 & -> & Hl1 & Hf).
    exists (x :: l1), l2. split; [done|]. split.
    + apply not_elem_of_cons. split; [congruence | done].
    + simpl. by rewrite Hf.
Qed.

Lemma erase_middle (l1 l2 : list ptr) c :
  erase (l1 ++ c :: l2) (length l1) = l1 ++ l2.
Proof. unfold erase. induction l1 as [|x l1 IH]; simpl; [done|]. by rewrite IH. Qed.

Lemma remove_absent this c cs w :
  heap w !! this = Some (Composite cs) -> c ∉ cs -> remove this c w = Ok tt w.
Proof.
  intros H Hc. unfold remove, bind. rewrite (get_m_children_ok this cs w H).
  rewrite (find_absent cs c Hc). by destruct (decide (length cs <> length cs)).
Qed.

Lemma remove_present this c l1 l2 w :
  heap w !! this = Some (Composite (l1 ++ c :: l2)) -> c ∉ l1 ->
  remove this c w
  = Ok tt (World (<[this:=Composite (l1 ++ l2)]> (heap w)) (cout w)).
Proof.
  intros H Hc. unfold remove, bind. rewrite (get_m_children_ok this _ w H).
  assert (Hf : find (l1 ++ c :: l2) c = length l1).
  { clear H. induction l1 as [|x l1 IH]; simpl.
    - by destruct (decide (c = c)).
    - apply not_elem_of_cons in Hc as [Hx Hl].
      destruct (decide (x = c)); [congruence|]. by rewrite IH. }
  rewrite Hf, erase_middle.
  destruct (decide (length l1 <> length (l1 ++ c :: l2))) as [|Heq]; [done|].
  exfalso. apply Heq. rewrite length_app. simpl. lia.
Qed.

(** ** The Composite traversal *)

(** C1.  [Composite::show] prints the count of its immediate children and
    then runs [show] on each child in child (i.e. insertion) order.  When the
    children hold finite trees, its output is that count line followed, in
    order, by exactly what [show] appends on each child; this is the
    depth-first pre-order linearization of the subtree, every interior size
    line standing right before the content of its subtree. *)
Theorem composite_show_preorder w p cs ts fuel :
  heap w !! p = Some (Composite cs) ->
  Forall2 (tree_at (heap w)) cs ts ->
  depth (TComposite ts) <= fuel ->
  (forall n, show (S n) p w
             = (print (size_line (length cs)) ;; for_each (show n) cs) w) /\
  Forall2 (fun c t => emits (show fuel c) w (preorder t)) cs ts /\
  emits (show fuel p) w (size_line (length cs) ++ concat (map preorder ts)) /\
  preorder (TComposite ts)
  = size_line (length cs) ++ concat (map preorder ts).
Proof.
  intros Hp Hcs Hd. split; [|split; [|split]].
  - intros n. simpl. unfold bind at 1, deref. by rewrite Hp.
  - simpl in Hd. assert (Hm : Forall (fun t => depth t <= fuel) ts).
    { apply max_depth_le. lia. }
    clear Hp Hd. induction Hcs as [|c t cs ts Hc _ IH]; [constructor|].
    inversion Hm; subst. constructor; [|by apply IH].
    exists tt. by apply show_tree.
  - exists tt. rewrite (show_tree fuel p (TComposite ts) w); [|by econstructor|done].
    simpl. by rewrite (Forall2_length _ _ _ Hcs).
  - simpl. by rewrite (Forall2_length _ _ _ Hcs).
Qed.

Lemma composite_show_preorder_witness :
  (forall n, show (S n) 1 w_demo
             = (print (size_line (length [2; 3; 4]%N)) ;;
                for_each (show n) [2; 3; 4]%N) w_demo) /\
  Forall2 (fun c t => emits (show 3 c) w_demo (preorder t))
    [2; 3; 4]%N [TLeaf 2; TLeaf 3; TComposite [TLeaf2 5]]%N /\
  emits (show 3 1%N) w_demo
    (size_line 3 ++ leaf_line 2 ++ leaf_line 3 ++ size_line 1 ++ leaf2_line 5) /\
  preorder t_demo
  = size_line 3 ++ leaf_line 2 ++ leaf_line 3 ++ size_line 1 ++ leaf2_line 5.
Proof.
  apply (composite_show_preorder w_demo 1%N [2; 3; 4]%N
           [TLeaf 2; TLeaf 3; TComposite [TLeaf2 5]]%N 3).
  - reflexivity.
  - tree_at_tac.
  - simpl. lia.
Defined.

(** ** The Visitor dispatch *)

Lemma operation_text_inj v e v' e' :
  operation_text v' e' = operation_text v e -> v' = v /\ e' = e.
Proof. destruct v, e, v', e'; simpl; intros H; by try discriminate H. Qed.

(** C2.  For each of the four pairs, [element.accept(visitor)] is the
    operation that the visitor's class declares for the element's class: it
    runs that operation once, appending its line and nothing else, and that
    line is the line of no other operation. *)
Theorem accept_double_dispatch (e : Element) (v : Visitor) (w : world) :
  accept e v = registered e v /\
  accept e v w
  = Ok tt (World (heap w) (cout w ++ [Str (operation_text v e); Endl])) /\
  (forall v' e', operation_text v' e' = operation_text v e ->
                 v' = v /\ e' = e).
Proof.
  split; [|split].
  - by destruct e, v.
  - by destruct e, v.
  - intros v' e'. apply operation_text_inj.
Qed.

(** ** Scenarios *)

(** C3.  The end-to-end scenario prints root's child count 3, the two
    leaves, the nested composite's child count 1 and the second-variant
    leaf, in this order, whatever addresses the five objects receive. *)
Theorem end_to_end_output (a_root a_l1 a_l2 a_child a_l3 : ptr) fuel w :
  NoDup [a_root; a_l1; a_l2; a_child; a_l3] ->
  Forall (fun a => a <> nullptr /\ heap w !! a = None)
    [a_root; a_l1; a_l2; a_child; a_l3] ->
  3 <= fuel ->
  exists h',
    end_to_end a_root a_l1 a_l2 a_child a_l3 fuel w
    = Ok tt (World h' (cout w ++ size_line 3 ++ leaf_line a_l1
                         ++ leaf_line a_l2 ++ size_line 1
                         ++ leaf2_line a_l3)).
Proof.
  intros Hnd Hfresh Hfuel.
  repeat match goal with
         | H : Forall _ (_ :: _) |- _ =>
             apply Forall_cons in H; destruct H as [[? ?] H]
         end.
  repeat match goal with
         | H : NoDup (_ :: _) |- _ =>
             apply NoDup_cons in H; destruct H as [? H]
         end.
  repeat match goal with
         | H : _ ∉ _ :: _ |- _ => apply not_elem_of_cons in H; destruct H
         end.
  unfold end_to_end.
  unfold bind at 1. rewrite new_ok by done. simpl.
  unfold bind at 1. rewrite new_ok by (simpl; by simplify_map_eq). simpl.
  unfold bind at 1.
  erewrite add_ok by (simpl; by simplify_map_eq). simpl.
  unfold bind at 1. rewrite new_ok by (simpl; by simplify_map_eq). simpl.
  unfold bind at 1.
  erewrite add_ok by (simpl; by simplify_map_eq). simpl.
  unfold bind at 1. rewrite new_ok by (simpl; by simplify_map_eq). simpl.
  unfold bind at 1.
  erewrite add_ok by (simpl; by simplify_map_eq). simpl.
  unfold bind at 1. rewrite new_ok by (simpl; by simplify_map_eq). simpl.
  unfold bind at 1.
  erewrite add_ok by (simpl; by simplify_map_eq). simpl.
  eexists.
  erewrite (show_tree fuel a_root
              (TComposite [TLeaf a_l1; TLeaf a_l2; TComposite [TLeaf2 a_l3]])).
  - simpl. reflexivity.
  - simpl.
    eapply tree_at_Composite; [by simplify_map_eq|].
    repeat apply List.Forall2_cons; try apply List.Forall2_nil.
    + apply tree_at_Leaf. by simplify_map_eq.
    + apply tree_at_Leaf. by simplify_map_eq.
    + eapply tree_at_Composite; [by simplify_map_eq|].
      repeat constructor. by simplify_map_eq.
  - simpl. lia.
Qed.

Lemma end_to_end_output_witness :
  exists h',
    end_to_end 1 2 3 4 5 3 w0
    = Ok tt (World h' (cout w0 ++ size_line 3 ++ leaf_line 2 ++ leaf_line 3
                         ++ size_line 1 ++ leaf2_line 5)).
Proof.
  assert (Hnd : NoDup [1; 2; 3; 4; 5]%N).
  { apply (bool_decide_unpack (NoDup [1; 2; 3; 4; 5]%N)). vm_compute.
    exact I. }
  assert (Hfresh : Forall (fun a => a <> nullptr /\ heap w0 !! a = None)
                     [1; 2; 3; 4; 5]%N).
  { repeat (apply List.Forall_cons; [split; [done | reflexivity]|]).
    apply List.Forall_nil. }
  assert (Hfuel : 3 <= 3) by lia.
  exact (end_to_end_output 1 2 3 4 5 3 w0 Hnd Hfresh Hfuel).
Defined.

(** The run of [composite()] of src/src/main.cpp, with its seven objects at
    addresses 1 to 7. *)
Example main_composite_output :
  exists h',
    main_composite 1 2 3 4 5 6 7 3 w0
    = Ok tt (World h' (size_line 4 ++ leaf_line 2 ++ leaf_line 3
                         ++ leaf2_line 4 ++ size_line 2 ++ leaf_line 6
                         ++ leaf2_line 7)).
Proof. eexists. vm_compute. reflexivity. Qed.

(** The run of [visitor()] of src/src/main.cpp. *)
Example main_visitor_output :
  main_visitor w0
  = Ok tt (World ∅
      [Str "ConcreteVisitor1 visit concrete element1"; Endl;
       Str "ConcreteVisitor2 visit concrete element1"; Endl;
       Str "ConcreteVisitor1 visit concrete element2"; Endl;
       Str "ConcreteVisitor2 visit concrete element2"; Endl]).
Proof. reflexivity. Qed.

(** ** Determinism of the rendering *)

(** C4, as the specification states it, fails: two heaps holding trees of
    the same structure, a single [Leaf], at two different addresses are
    rendered differently, because [Leaf::show] prints [this]. *)
Lemma render_depends_on_leaf_address :
  ~ (forall w1 w2 p1 p2 t1 t2 f1 f2 u1 u2 w1' w2',
       tree_at (heap w1) p1 t1 -> tree_at (heap w2) p2 t2 ->
       shape_of t1 = shape_of t2 ->
       cout w1 = cout w2 ->
       show f1 p1 w1 = Ok u1 w1' -> show f2 p2 w2 = Ok u2 w2' ->
       cout w1' = cout w2').
Proof.
  intros H.
  specialize (H (World {[1%N := Leaf]} []) (World {[2%N := Leaf]} [])
                1%N 2%N (TLeaf 1) (TLeaf 2) 1 1 tt tt
                (World {[1%N := Leaf]} (leaf_line 1))
                (World {[2%N := Leaf]} (leaf_line 2))).
  simpl in H.
  assert (Hc : leaf_line 1 = leaf_line 2).
  { apply H; try reflexivity; by apply tree_at_Leaf. }
  discriminate Hc.
Qed.

(** C4, amended.  On a heap holding a finite tree, a run of [show] that
    returns has appended the pre-order linearization of that tree and has
    changed nothing else: the output is decided by the tree, i.e. by its
    structure, its child order and the addresses of its leaves, and by
    neither the fuel, the rest of the heap, the addresses of the composites
    nor what was printed before.  Trees of one structure give outputs that
    differ in the printed addresses only. *)
Theorem render_function_of_tree w1 w2 p1 p2 t1 t2 f1 f2 u1 u2 w1' w2' :
  tree_at (heap w1) p1 t1 -> tree_at (heap w2) p2 t2 ->
  show f1 p1 w1 = Ok u1 w1' -> show f2 p2 w2 = Ok u2 w2' ->
  w1' = World (heap w1) (cout w1 ++ preorder t1) /\
  w2' = World (heap w2) (cout w2 ++ preorder t2) /\
  (t1 = t2 -> preorder t1 = preorder t2) /\
  (shape_of t1 = shape_of t2 ->
   map blank (preorder t1) = map blank (preorder t2)).
Proof.
  intros Ht1 Ht2 H1 H2. split; [|split; [|split]].
  - by eapply show_tree_inv.
  - by eapply show_tree_inv.
  - by intros ->.
  - apply blank_preorder_shape.
Qed.

Lemma render_function_of_tree_witness :
  World (heap w_demo) (preorder t_demo)
  = World (heap w_demo) (cout w_demo ++ preorder t_demo) /\
  World (heap w_demo') (cout w_demo' ++ preorder t_demo)
  = World (heap w_demo') (cout w_demo' ++ preorder t_demo) /\
  (t_demo = t_demo -> preorder t_demo = preorder t_demo) /\
  (shape_of t_demo = shape_of t_demo ->
   map blank (preorder t_demo) = map blank (preorder t_demo)).
Proof.
  apply (render_function_of_tree w_demo w_demo' 1%N 10%N t_demo t_demo
           3 5 tt tt).
  - unfold t_demo. tree_at_tac.
  - unfold t_demo. tree_at_tac.
  - vm_compute. reflexivity.
  - vm_compute. reflexivity.
Defined.

(** ** Removal *)

(** C5.  On a composite with children [cs], [remove(x)] returns normally in
    both cases.  If [x] is not among [cs], nothing changes.  If it is, the
    children become [cs] without the first entry equal to [x] (pointer
    equality): everything before it and everything after it stays, in the
    same order, and nothing else in the heap changes. *)
Theorem remove_first_occurrence w this cs x :
  heap w !! this = Some (Composite cs) ->
  (x ∉ cs -> remove this x w = Ok tt w) /\
  (x ∈ cs ->
   exists l1 l2,
     cs = l1 ++ x :: l2 /\ (x ∉ l1) /\
     remove this x w
     = Ok tt (World (<[this:=Composite (l1 ++ l2)]> (heap w)) (cout w))).
Proof.
  intros Hthis. split.
  - intros Hx. by eapply remove_absent.
  - intros Hx. destruct (find_present cs x Hx) as (l1 & l2 & -> & Hl1 & _).
    exists l1, l2. split; [done|]. split; [done|].
    by apply remove_present.
Qed.

Lemma remove_first_occurrence_witness :
  (9%N ∉ [2; 3; 2]%N -> remove 1 9 w_twice = Ok tt w_twice) /\
  (3%N ∈ [2; 3; 2]%N ->
   exists l1 l2,
     [2; 3; 2]%N = l1 ++ 3%N :: l2 /\ (3%N ∉ l1) /\
     remove 1 3 w_twice
     = Ok tt (World (<[1%N:=Composite (l1 ++ l2)]> (heap w_twice))
                (cout w_twice))).
Proof.
  split.
  - apply (remove_first_occurrence w_twice 1%N [2; 3; 2]%N 9%N).
    reflexivity.
  - apply (remove_first_occurrence w_twice 1%N [2; 3; 2]%N 3%N).
    reflexivity.
Defined.

(** Of two equal entries the first one goes. *)
Example remove_duplicate :
  (remove 1 2 ;; getChildren 1) w_twice
  = Ok [3; 2]%N (World (<[1%N:=Composite [3; 2]%N]> (heap w_twice)) []).
Proof. vm_compute. reflexivity. Qed.

(** ** Nesting *)

(** C6, as the specification states it, fails: a composite that received an
    empty composite and two leaves has three immediate children and prints
    the count 3, not 2. *)
Lemma nesting_count_is_not_2 :
  ~ (forall w (root inner l1 l2 : ptr) fuel,
       heap w !! root = Some (Composite []) ->
       heap w !! inner = Some (Composite []) ->
       root <> inner ->
       heap w !! l1 = Some Leaf -> heap w !! l2 = Some Leaf ->
       2 <= fuel ->
       exists h',
         nesting root inner l1 l2 fuel w
         = Ok tt (World h' (cout w ++ size_line 2 ++ size_line 0
                              ++ leaf_line l1 ++ leaf_line l2))).
Proof.
  intros H.
  pose proof (H w_parts 1%N 2%N 3%N 4%N 2 eq_refl eq_refl
                ltac:(discriminate) eq_refl eq_refl ltac:(lia)) as [h' Hrun].
  vm_compute in Hrun. discriminate Hrun.
Qed.

(** C6, amended.  A composite that receives, in this order, an empty
    composite and two leaves prints the count 3, then the nested composite's
    count 0, then the two leaves in insertion order. *)
Theorem nesting_output w (root inner l1 l2 : ptr) fuel :
  heap w !! root = Some (Composite []) ->
  heap w !! inner = Some (Composite []) ->
  root <> inner ->
  heap w !! l1 = Some Leaf -> heap w !! l2 = Some Leaf ->
  2 <= fuel ->
  nesting root inner l1 l2 fuel w
  = Ok tt (World (<[root:=Composite [inner; l1; l2]]> (heap w))
             (cout w ++ size_line 3 ++ size_line 0
                ++ leaf_line l1 ++ leaf_line l2)).
Proof.
  intros Hroot Hinner Hne Hl1 Hl2 Hfuel.
  assert (root <> l1) by congruence. assert (root <> l2) by congruence.
  unfold nesting.
  unfold bind at 1. erewrite add_ok by done. simpl.
  unfold bind at 1. erewrite add_ok by (simpl; by simplify_map_eq). simpl.
  unfold bind at 1. erewrite add_ok by (simpl; by simplify_map_eq). simpl.
  rewrite !insert_insert_eq.
  erewrite (show_tree fuel root (TComposite [TComposite []; TLeaf l1; TLeaf l2])).
  - reflexivity.
  - simpl. eapply tree_at_Composite; [by simplify_map_eq|].
    repeat apply List.Forall2_cons; try apply List.Forall2_nil.
    + eapply tree_at_Composite; [by simplify_map_eq | constructor].
    + apply tree_at_Leaf. by simplify_map_eq.
    + apply tree_at_Leaf. by simplify_map_eq.
  - simpl. lia.
Qed.

Lemma nesting_output_witness :
  nesting 1 2 3 4 2 w_parts
  = Ok tt (World (<[1%N:=Composite [2; 3; 4]%N]> (heap w_parts))
             (cout w_parts ++ size_line 3 ++ size_line 0
                ++ leaf_line 3 ++ leaf_line 4)).
Proof.
  apply (nesting_output w_parts 1%N 2%N 3%N 4%N 2);
    [reflexivity | reflexivity | discriminate | reflexivity | reflexivity | lia].
Defined.

(** ** Rendering again, snapshots, termination, frame *)

(** C7.  When a call of [show] returns, a second call right after it
    returns too and appends the very same output; the heap the output
    depends on is as before. *)
Theorem show_twice_same_output fuel p w u w1 :
  show fuel p w = Ok u w1 ->
  exists out,
    w1 = World (heap w) (cout w ++ out) /\
    show fuel p w1 = Ok tt (World (heap w) ((cout w ++ out) ++ out)) /\
    (show fuel p ;; show fuel p) w
    = Ok tt (World (heap w) ((cout w ++ out) ++ out)).
Proof.
  intros H. destruct (appends_only_show fuel p w u w1 H) as (out & -> & Hc).
  exists out. split; [done|]. split; [apply Hc|].
  unfold bind. rewrite H. apply Hc.
Qed.

Lemma show_twice_same_output_witness :
  exists out,
    World (heap w_demo) (preorder t_demo)
    = World (heap w_demo) (cout w_demo ++ out) /\
    show 3 1 (World (heap w_demo) (preorder t_demo))
    = Ok tt (World (heap w_demo) ((cout w_demo ++ out) ++ out)) /\
    (show 3 1 ;; show 3 1) w_demo
    = Ok tt (World (heap w_demo) ((cout w_demo ++ out) ++ out)).
Proof.
  apply (show_twice_same_output 3 1%N w_demo tt
           (World (heap w_demo) (preorder t_demo))).
  vm_compute. reflexivity.
Defined.

(** C8.  [getChildren] returns the child sequence as it is at the call and
    changes nothing.  The returned vector is a value of its own: after a
    later [add] or [remove] on the composite it is still the old sequence,
    while a new call returns the new one. *)
Theorem getChildren_snapshot w this cs c :
  heap w !! this = Some (Composite cs) ->
  getChildren this w = Ok cs w /\
  (exists w1,
     (let* v := getChildren this in
      add this c ;;
      let* v' := getChildren this in ret (v, v')) w
     = Ok (cs, cs ++ [c]) w1) /\
  (exists w2,
     (let* v := getChildren this in
      remove this c ;;
      let* v' := getChildren this in ret (v, v')) w
     = Ok (cs, if decide (c ∈ cs) then erase cs (find cs c) else cs) w2).
Proof.
  intros Hthis. unfold getChildren.
  split; [by apply get_m_children_ok|]. split.
  - eexists. unfold bind at 1. rewrite (get_m_children_ok this cs w Hthis).
    unfold bind at 1. rewrite (add_ok this c cs w Hthis).
    unfold bind. erewrite get_m_children_ok; [reflexivity|].
    simpl. by simplify_map_eq.
  - unfold bind at 1. rewrite (get_m_children_ok this cs w Hthis).
    destruct (decide (c ∈ cs)) as [Hin|Hout].
    + destruct (find_present cs c Hin) as (l1 & l2 & -> & Hl1 & Hf).
      eexists. unfold bind at 1. rewrite (remove_present this c l1 l2 w Hthis Hl1).
      unfold bind. erewrite get_m_children_ok by (simpl; by simplify_map_eq).
      rewrite Hf, erase_middle. reflexivity.
    + eexists. unfold bind at 1. rewrite (remove_absent this c cs w Hthis Hout).
      unfold bind. by rewrite (get_m_children_ok this cs w Hthis).
Qed.

Lemma getChildren_snapshot_witness :
  getChildren 1 w_twice = Ok [2; 3; 2]%N w_twice /\
  (exists w1,
     (let* v := getChildren 1 in
      add 1 2 ;;
      let* v' := getChildren 1 in ret (v, v')) w_twice
     = Ok ([2; 3; 2]%N, [2; 3; 2]%N ++ [2%N]) w1) /\
  (exists w2,
     (let* v := getChildren 1 in
      remove 1 2 ;;
      let* v' := getChildren 1 in ret (v, v')) w_twice
     = Ok ([2; 3; 2]%N,
           if decide (2%N ∈ [2; 3; 2]%N)
           then erase [2; 3; 2]%N (find [2; 3; 2]%N 2%N)
           else [2; 3; 2]%N) w2).
Proof.
  apply (getChildren_snapshot w_twice 1%N [2; 3; 2]%N 2%N). reflexivity.
Defined.

(** A composite reachable from itself is never rendered to the end: the
    recursion outruns any fuel. *)
Lemma show_cycle_timeout h p :
  h !! p = Some (Composite [p]) ->
  forall fuel c, show fuel p (World h c) = Timeout.
Proof.
  intros Hp. induction fuel as [|fuel IH]; intros c; [done|].
  change (show (S fuel) p (World h c)) with
    ((let* o := deref p in
      match o with
      | Leaf => Leaf_show p
      | Leaf2 => Leaf2_show p
      | Composite m_children =>
          print [Str "Size:"; Size (length m_children); Endl] ;;
          for_each (show fuel) m_children
      end) (World h c)).
  unfold bind at 1, deref. cbn [heap]. rewrite Hp.
  unfold bind at 1, print. cbn [for_each]. unfold bind at 1. by rewrite IH.
Qed.

Example show_w_cycle fuel : show fuel 1 w_cycle = Timeout.
Proof. by apply (show_cycle_timeout (heap w_cycle) 1%N). Qed.

(** C9.  On a heap that holds a finite tree at [p] (no pointer under [p] is
    null or dangling and no composite is reachable from itself), [show]
    returns as soon as the fuel covers the depth of the tree, whatever that
    depth is; an empty composite appends its count line with 0 and nothing
    else. *)
Theorem show_terminates w p t :
  tree_at (heap w) p t ->
  (forall fuel, depth t <= fuel ->
     show fuel p w = Ok tt (World (heap w) (cout w ++ preorder t))) /\
  (t = TComposite [] ->
   forall fuel, 1 <= fuel ->
     show fuel p w = Ok tt (World (heap w) (cout w ++ size_line 0))).
Proof.
  intros Ht. split.
  - intros fuel Hd. by apply show_tree.
  - intros -> fuel Hd. by rewrite (show_tree fuel p (TComposite []) w Ht).
Qed.

Lemma show_terminates_witness :
  (forall fuel, 3 <= fuel ->
     show fuel 1 w_nested
     = Ok tt (World (heap w_nested)
                (cout w_nested ++ size_line 1 ++ size_line 1 ++ size_line 0)))
  /\
  (TComposite [] = TComposite [] ->
   forall fuel, 1 <= fuel ->
     show fuel 3 w_nested
     = Ok tt (World (heap w_nested) (cout w_nested ++ size_line 0))).
Proof.
  split.
  - apply (show_terminates w_nested 1%N
             (TComposite [TComposite [TComposite []]])).
    tree_at_tac.
  - apply (show_terminates w_nested 3%N (TComposite [])). tree_at_tac.
Defined.

(** C10.  A call of [show] that returns leaves the heap as it found it:
    every composite, in the subtree or not, has the children it had. *)
Theorem show_read_only fuel p w u w' :
  show fuel p w = Ok u w' ->
  heap w' = heap w /\
  (forall q cs, heap w !! q = Some (Composite cs) ->
                heap w' !! q = Some (Composite cs)).
Proof.
  intros H. destruct (appends_only_show fuel p w u w' H) as (out & -> & _).
  simpl. split; [done|]. by intros q cs Hq.
Qed.

Lemma show_read_only_witness :
  heap (World (heap w_demo) (preorder t_demo)) = heap w_demo /\
  (forall q cs, heap w_demo !! q = Some (Composite cs) ->
     heap (World (heap w_demo) (preorder t_demo)) !! q = Some (Composite cs)).
Proof.
  apply (show_read_only 3 1%N w_demo tt
           (World (heap w_demo) (preorder t_demo))).
  vm_compute. reflexivity.
Defined.

(** ** More on the Composite operations *)

Lemma depth_child t ts : t ∈ ts -> depth t < depth (TComposite ts).
Proof.
  intros Ht. simpl. apply PeanoNat.Nat.lt_succ_r.
  induction ts as [|t' ts IH]; [by apply elem_of_nil in Ht|].
  simpl. apply elem_of_cons in Ht as [->|Ht]; [lia|].
  specialize (IH Ht). lia.
Qed.

Lemma max_depth_bound (ts : list tree) n :
  Forall (fun t => depth t <= n) ts ->
  foldr (fun t d => Nat.max (depth t) d) 0 ts <= n.
Proof. induction 1; simpl; lia. Qed.

(** A pointer holds at most one tree. *)
Lemma tree_at_functional h t1 : forall p t2,
  tree_at h p t1 -> tree_at h p t2 -> t1 = t2.
Proof.
  induction t1 as [a|a|ts IH] using tree_induction; intros p t2 H1 H2;
    inversion H1 as [q Hq|q Hq|q cs us Hq Hcs]; subst;
    inversion H2 as [q' Hq'|q' Hq'|q' cs' us' Hq' Hcs']; subst;
    try congruence.
  assert (cs' = cs) as -> by congruence. f_equal.
  clear Hq Hq' H1 H2. revert us' Hcs'.
  induction Hcs as [|c t cs ts Hc _ IHcs]; intros us' Hcs';
    inversion Hcs' as [|? y ? us Hy Hus]; subst; [done|].
  inversion IH as [|? ? Ht Hts]; subst.
  f_equal; [by eapply Ht | by apply IHcs].
Qed.

Lemma tree_at_child h p t c :
  tree_at h p t -> child_of h c p ->
  exists t', tree_at h c t' /\ depth t' < depth t.
Proof.
  intros Ht (cs & Hp & Hc).
  inversion Ht as [q Hq|q Hq|q cs' ts Hq Hcs]; subst; try congruence.
  assert (cs' = cs) as -> by congruence.
  apply list_elem_of_lookup_1 in Hc as [i Hi].
  destruct (Forall2_lookup_l _ _ _ _ _ Hcs Hi) as (t' & Hi' & Ht').
  exists t'. split; [done|]. apply depth_child.
  by eapply list_elem_of_lookup_2.
Qed.

Lemma tree_at_descendant h c p :
  tc (child_of h) c p ->
  forall t, tree_at h p t -> exists t', tree_at h c t' /\ depth t' < depth t.
Proof.
  induction 1 as [c p Hc|c q p Hc _ IH]; intros t Ht.
  - by eapply tree_at_child.
  - destruct (IH t Ht) as (tq & Htq & Hd).
    destruct (tree_at_child h q tq c Htq Hc) as (t' & Ht' & Hd').
    exists t'. split; [done | lia].
Qed.

(** No finite tree sits on a cycle of child pointers. *)
Lemma no_tree_on_cycle h p t : tc (child_of h) p p -> tree_at h p t -> False.
Proof.
  intros Hc Ht. destruct (tree_at_descendant h p p Hc t Ht) as (t' & Ht' & Hd).
  rewrite (tree_at_functional h t' p t Ht' Ht) in Hd. lia.
Qed.

(** A run that returns has walked a finite tree. *)
Lemma for_each_show_ok_trees fuel cs :
  (forall p w u w', show fuel p w = Ok u w' ->
     exists t, tree_at (heap w) p t /\ depth t <= fuel) ->
  forall w u w', for_each (show fuel) cs w = Ok u w' ->
    exists ts, Forall2 (tree_at (heap w)) cs ts /\
               Forall (fun t => depth t <= fuel) ts.
Proof.
  intros IH. induction cs as [|c cs IHcs]; intros w u w' H.
  - exists []. split; constructor.
  - simpl in H. unfold bind in H.
    destruct (show fuel c w) as [u1 w1| |] eqn:E1; try done.
    destruct (IH _ _ _ _ E1) as (t & Ht & Hd).
    destruct (IHcs _ _ _ H) as (ts & Hts & Hds).
    rewrite (show_heap _ _ _ _ _ E1) in Hts.
    exists (t :: ts). split; by constructor.
Qed.

Lemma show_ok_tree fuel : forall p w u w',
  show fuel p w = Ok u w' ->
  exists t, tree_at (heap w) p t /\ depth t <= fuel.
Proof.
  induction fuel as [|fuel IH]; intros p w u w' H; [done|].
  simpl in H. unfold bind at 1, deref in H.
  destruct (heap w !! p) as [[| |cs]|] eqn:Hp; try done.
  - exists (TLeaf p). split; [by constructor | simpl; lia].
  - exists (TLeaf2 p). split; [by constructor | simpl; lia].
  - unfold bind, print in H. simpl in H.
    destruct (for_each_show_ok_trees fuel cs IH _ _ _ H) as (ts & Hts & Hds).
    simpl in Hts. exists (TComposite ts). split; [by econstructor|].
    simpl. apply le_n_S. by apply max_depth_bound.
Qed.

Lemma show_cycle_not_ok fuel p w u w' :
  tc (child_of (heap w)) p p -> show fuel p w <> Ok u w'.
Proof.
  intros Hc H. destruct (show_ok_tree fuel p w u w' H) as (t & Ht & _).
  by eapply no_tree_on_cycle.
Qed.

(** X1.  [show] returns normally only on a finite tree: if a call returns,
    the heap holds a finite tree at its receiver (no null or dangling
    child pointer, no composite below itself), the nesting of that tree is
    within the recursion depth used, and the output is its linearization. *)
Theorem show_returns_only_on_trees fuel p w u w' :
  show fuel p w = Ok u w' ->
  exists t, tree_at (heap w) p t /\ depth t <= fuel /\
            w' = World (heap w) (cout w ++ preorder t).
Proof.
  intros H. destruct (show_ok_tree fuel p w u w' H) as (t & Ht & Hd).
  exists t. split; [done|]. split; [done|]. by eapply show_tree_inv.
Qed.

Lemma show_returns_only_on_trees_witness :
  exists t, tree_at (heap w_demo) 1 t /\ depth t <= 3 /\
            World (heap w_demo) (preorder t_demo)
            = World (heap w_demo) (cout w_demo ++ preorder t).
Proof.
  apply (show_returns_only_on_trees 3 1%N w_demo tt
           (World (heap w_demo) (preorder t_demo))).
  vm_compute. reflexivity.
Defined.

(** X2.  A composite that is its own descendant, directly or through other
    composites, is never rendered to the end: no call of [show] on it
    returns, whatever the recursion depth allowed. *)
Theorem show_on_cycle_never_returns p w :
  tc (child_of (heap w)) p p ->
  forall fuel u w', show fuel p w <> Ok u w'.
Proof. intros Hc fuel u w'. by apply show_cycle_not_ok. Qed.

Lemma show_on_cycle_never_returns_witness :
  tc (child_of (heap w_mutual)) 1%N 1%N /\
  forall fuel u w', show fuel 1 w_mutual <> Ok u w'.
Proof.
  assert (Hc : tc (child_of (heap w_mutual)) 1%N 1%N).
  { apply (tc_l _ 1%N 2%N 1%N).
    - exists [1%N]. split; [reflexivity | apply list_elem_of_here].
    - apply tc_once. exists [2%N].
      split; [reflexivity | apply list_elem_of_here]. }
  split; [exact Hc | exact (show_on_cycle_never_returns 1%N w_mutual Hc)].
Defined.

(** X3.  [add] does not refuse its own receiver: [c.add(c)] returns
    normally, and from then on [c.show()] never returns. *)
Theorem add_self_allowed_then_show_never_returns w p cs :
  heap w !! p = Some (Composite cs) ->
  add p p w
  = Ok tt (World (<[p:=Composite (cs ++ [p])]> (heap w)) (cout w)) /\
  forall fuel u w', (add p p ;; show fuel p) w <> Ok u w'.
Proof.
  intros Hp. split; [by apply add_ok|].
  intros fuel u w'. unfold bind. rewrite (add_ok p p cs w Hp).
  apply show_cycle_not_ok. apply tc_once. exists (cs ++ [p]). simpl.
  split; [by simplify_map_eq|]. apply elem_of_app. right. apply list_elem_of_here.
Qed.

Lemma add_self_allowed_then_show_never_returns_witness :
  add 1 1 w_parts
  = Ok tt (World (<[1%N:=Composite ([] ++ [1%N])]> (heap w_parts))
             (cout w_parts)) /\
  forall fuel u w', (add 1 1 ;; show fuel 1) w_parts <> Ok u w'.
Proof.
  apply (add_self_allowed_then_show_never_returns w_parts 1%N []). reflexivity.
Defined.

Lemma tree_at_weaken h h' t : forall q,
  h ⊆ h' -> tree_at h q t -> tree_at h' q t.
Proof.
  induction t as [a|a|ts IH] using tree_induction; intros q Hsub Ht;
    inversion Ht as [q' Hq|q' Hq|q' cs us Hq Hcs]; subst.
  - apply tree_at_Leaf. by eapply lookup_weaken.
  - apply tree_at_Leaf2. by eapply lookup_weaken.
  - eapply tree_at_Composite; [by eapply lookup_weaken|].
    clear Hq Ht. induction Hcs as [|c t cs ts Hc _ IHcs]; [constructor|].
    inversion IH as [|? ? Ht Hts]; subst.
    constructor; [by apply Ht | by apply IHcs].
Qed.

(** What lies strictly below [p] in a finite tree does not pass through
    [p]. *)
Lemma tree_at_below_delete h p T t : forall q,
  tree_at h p T -> tree_at h q t -> depth t < depth T ->
  tree_at (delete p h) q t.
Proof.
  induction t as [a|a|ts IH] using tree_induction; intros q HT Ht Hd.
  - assert (q <> p).
    { intros ->. rewrite (tree_at_functional h _ p T Ht HT) in Hd. lia. }
    inversion Ht; subst. apply tree_at_Leaf. by rewrite lookup_delete_ne.
  - assert (q <> p).
    { intros ->. rewrite (tree_at_functional h _ p T Ht HT) in Hd. lia. }
    inversion Ht; subst. apply tree_at_Leaf2. by rewrite lookup_delete_ne.
  - assert (q <> p).
    { intros ->. rewrite (tree_at_functional h _ p T Ht HT) in Hd. lia. }
    inversion Ht as [| |q' cs us Hq Hcs]; subst.
    eapply tree_at_Composite; [by rewrite lookup_delete_ne|].
    assert (Hds : Forall (fun t => depth t < depth T) ts).
    { apply Forall_forall. intros t Hin.
      pose proof (depth_child t ts Hin). lia. }
    clear Hq Ht Hd. induction Hcs as [|c t cs ts Hc _ IHcs]; [constructor|].
    inversion IH as [|? ? Ht Hts]; subst. inversion Hds; subst.
    constructor; [by apply Ht | by apply IHcs].
Qed.

Lemma delete_subseteq_insert (h : gmap N Component) p o :
  delete p h ⊆ <[p:=o]> h.
Proof.
  rewrite <- (insert_delete_eq h p o). apply insert_subseteq.
  apply lookup_delete_eq.
Qed.

Lemma trees_below_delete h p T cs ts :
  tree_at h p T -> Forall2 (tree_at h) cs ts ->
  Forall (fun t => depth t < depth T) ts ->
  Forall2 (tree_at (delete p h)) cs ts.
Proof.
  intros HT Hcs. induction Hcs as [|q t cs ts Hq _ IHcs]; intros Hds;
    [constructor|].
  inversion Hds; subst.
  constructor; [by eapply tree_at_below_delete | by apply IHcs].
Qed.

Lemma children_below_delete h p cs ts :
  h !! p = Some (Composite cs) -> Forall2 (tree_at h) cs ts ->
  Forall2 (tree_at (delete p h)) cs ts.
Proof.
  intros Hp Hcs. apply (trees_below_delete h p (TComposite ts)); [|done|].
  - by econstructor.
  - apply Forall_forall. intros t Hin. by apply depth_child.
Qed.

(** X4.  Adding a child to a composite that holds a finite tree, when the
    child holds a finite tree that does not pass through the composite,
    gives a composite that renders as before except that the count is one
    higher and the new child's rendering comes last. *)
Theorem add_then_show w p cs ts c tc fuel :
  heap w !! p = Some (Composite cs) ->
  Forall2 (tree_at (heap w)) cs ts ->
  tree_at (delete p (heap w)) c tc ->
  depth (TComposite (ts ++ [tc])) <= fuel ->
  (add p c ;; show fuel p) w
  = Ok tt (World (<[p:=Composite (cs ++ [c])]> (heap w))
             (cout w ++ size_line (S (length cs))
                ++ concat (map preorder ts) ++ preorder tc)).
Proof.
  intros Hp Hcs Hc Hfuel.
  unfold bind. rewrite (add_ok p c cs w Hp).
  pose proof (delete_subseteq_insert (heap w) p (Composite (cs ++ [c])))
    as Hsub.
  pose proof (children_below_delete _ _ _ _ Hp Hcs) as Hcs'.
  rewrite (show_tree fuel p (TComposite (ts ++ [tc]))); [| |done].
  - simpl. rewrite length_app, map_app, concat_app. simpl.
    by rewrite app_nil_r, (Forall2_length _ _ _ Hcs), Nat.add_1_r.
  - simpl. eapply tree_at_Composite; [by simplify_map_eq|].
    apply Forall2_app.
    + eapply Forall2_impl; [exact Hcs'|]. intros q t Hq.
      by eapply tree_at_weaken.
    + constructor; [|constructor]. by eapply tree_at_weaken.
Qed.

Lemma add_then_show_witness :
  (add 4 2 ;; show 3 4) w_demo
  = Ok tt (World (<[4%N:=Composite ([5%N] ++ [2%N])]> (heap w_demo))
             (cout w_demo ++ size_line 2 ++ concat (map preorder [TLeaf2 5])
                ++ preorder (TLeaf 2))).
Proof.
  apply (add_then_show w_demo 4%N [5%N] [TLeaf2 5] 2%N (TLeaf 2) 3).
  - reflexivity.
  - tree_at_tac.
  - tree_at_tac.
  - simpl. lia.
Defined.



(** ** Observer *)

Lemma unsubscribe_loop_find (v : list ptr) s :
  observer.unsubscribe_loop v s
  = if decide (find v s <> length v) then erase v (find v s) else v.
Proof.
  induction v as [|x v IH]; simpl; [done|].
  destruct (decide (x = s)) as [->|Hne]; simpl; [done|].
  rewrite IH. unfold erase.
  destruct (decide (find v s <> length v)) as [H|H];
    destruct (decide (S (find v s) <> S (length v))) as [H'|H']; try done; lia.
Qed.

(** X6.  [Publisher::unsubscribe] removes the first registration of the
    subscriber and no other, keeping the order of the rest; when the
    subscriber is not registered the publisher is left as it was.  Its loop
    computes what [std::find] and [erase] compute in [Composite::remove]. *)
Theorem unsubscribe_first_registration (this : observer.Publisher) (s : ptr) :
  (s ∉ observer.m_subscribers this -> observer.unsubscribe this s = this) /\
  (s ∈ observer.m_subscribers this ->
   exists l1 l2,
     observer.m_subscribers this = l1 ++ s :: l2 /\ (s ∉ l1) /\
     observer.m_subscribers (observer.unsubscribe this s) = l1 ++ l2) /\
  observer.m_subscribers (observer.unsubscribe this s)
  = (if decide (find (observer.m_subscribers this) s
                <> length (observer.m_subscribers this))
     then erase (observer.m_subscribers this)
            (find (observer.m_subscribers this) s)
     else observer.m_subscribers this).
Proof.
  destruct this as [v]. unfold observer.unsubscribe. simpl.
  rewrite unsubscribe_loop_find. split; [|split]; [| |done].
  - intros Hs. rewrite (find_absent v s Hs).
    by destruct (decide (length v <> length v)).
  - intros Hs. destruct (find_present v s Hs) as (l1 & l2 & -> & Hl1 & Hf).
    exists l1, l2. split; [done|]. split; [done|].
    rewrite Hf, erase_middle.
    destruct (decide (length l1 <> length (l1 ++ s :: l2))) as [|Heq]; [done|].
    exfalso. apply Heq. rewrite length_app. simpl. lia.
Qed.

Lemma notify_loop_app objs v1 v2 i :
  observer.notify_loop objs (v1 ++ v2) i
  = match observer.notify_loop objs v1 i, observer.notify_loop objs v2 i with
    | Some o1, Some o2 => Some (o1 ++ o2)
    | _, _ => None
    end.
Proof.
  induction v1 as [|s v1 IH]; simpl.
  - by destruct (observer.notify_loop objs v2 i).
  - destruct (objs !! s) as [o|]; [|done]. rewrite IH.
    destruct (observer.notify_loop objs v1 i),
             (observer.notify_loop objs v2 i); try done.
    by rewrite app_assoc.
Qed.

(** X7.  [Publisher::notify] calls [update] once per registration, in
    registration order, when every registered pointer designates a live
    subscriber; a registered pointer that designates none makes the call
    undefined. *)
Theorem notify_in_registration_order objs (this : observer.Publisher) i :
  (forall os,
     Forall2 (fun s o => objs !! s = Some o) (observer.m_subscribers this) os ->
     observer.notify objs this i
     = Some (concat (map (fun o => observer.update o i) os))) /\
  (forall s, s ∈ observer.m_subscribers this -> objs !! s = None ->
             observer.notify objs this i = None).
Proof.
  destruct this as [v]. unfold observer.notify. simpl. split.
  - intros os H. induction H as [|s o v os Hs _ IH]; simpl; [done|].
    by rewrite Hs, IH.
  - intros s Hs Hnone. apply list_elem_of_split in Hs as (l1 & l2 & ->).
    rewrite notify_loop_app. simpl. rewrite Hnone.
    by destruct (observer.notify_loop objs l1 i).
Qed.

(** X8.  [Publisher::subscribe] does not look for an earlier registration:
    after it, [notify] does what it did before and then updates the new
    subscriber, also when that subscriber was registered already. *)
Theorem subscribe_adds_a_notification objs (this : observer.Publisher) s o i out :
  observer.notify objs this i = Some out ->
  objs !! s = Some o ->
  observer.notify objs (observer.subscribe this s) i
  = Some (out ++ observer.update o i).
Proof.
  intros Hn Hs. unfold observer.notify, observer.subscribe in *. simpl.
  rewrite notify_loop_app, Hn. simpl. rewrite Hs. by rewrite app_nil_r.
Qed.

Lemma subscribe_adds_a_notification_witness :
  observer.notify subscribers_demo
    (observer.subscribe {| observer.m_subscribers := [1; 2]%N |} 1) 7
  = Some ([Tok (Str "subscriber1 :"); Num 7; Tok Endl;
           Tok (Str "subscriber2 :"); Num 7; Tok Endl]
          ++ observer.update observer.ConcreteSubscriber1 7).
Proof.
  apply (subscribe_adds_a_notification subscribers_demo
           {| observer.m_subscribers := [1; 2]%N |} 1%N
           observer.ConcreteSubscriber1 7%Z).
  - reflexivity.
  - reflexivity.
Defined.

(** ** Iterator *)

(** X9.  [ConcreteIterator::getNext] never indexes out of range: on a live
    collection it returns the element at [m_i] and advances by one while
    [m_i] is below the size, and otherwise returns 0 and leaves the
    iterator where it is. *)
Theorem getNext_in_bounds colls (this : iterator.ConcreteIterator) c :
  colls !! iterator.m_collection this = Some c ->
  (iterator.m_i this < length (iterator.m_data c) ->
   exists x,
     iterator.m_data c !! iterator.m_i this = Some x /\
     iterator.getNext colls this
     = Some (x, {| iterator.m_collection := iterator.m_collection this;
                   iterator.m_i := S (iterator.m_i this) |})) /\
  (length (iterator.m_data c) <= iterator.m_i this ->
   iterator.getNext colls this = Some (0%Z, this)).
Proof.
  intros Hc. unfold iterator.getNext, iterator.hasMore. rewrite Hc. split.
  - intros Hlt. rewrite bool_decide_eq_true_2 by done.
    destruct (lookup_lt_is_Some_2 _ _ Hlt) as [x Hx].
    exists x. by rewrite Hx.
  - intros Hge. rewrite bool_decide_eq_false_2 by lia. done.
Qed.

Lemma getNext_in_bounds_witness :
  (iterator.m_i (iterator.createIterator 1) < length [1; 2; 3; 4; 5; 6; 7]%Z ->
   exists x,
     [1; 2; 3; 4; 5; 6; 7]%Z !! iterator.m_i (iterator.createIterator 1)
     = Some x /\
     iterator.getNext collections_demo (iterator.createIterator 1)
     = Some (x, {| iterator.m_collection := 1%N; iterator.m_i := 1 |})) /\
  (length [1; 2; 3; 4; 5; 6; 7]%Z <= iterator.m_i (iterator.createIterator 1) ->
   iterator.getNext collections_demo (iterator.createIterator 1)
   = Some (0%Z, iterator.createIterator 1)).
Proof.
  apply (getNext_in_bounds collections_demo (iterator.createIterator 1)
           {| iterator.m_data := [1; 2; 3; 4; 5; 6; 7]%Z |}).
  reflexivity.
Defined.

(** X10.  The loop [while (hasMore()) print getNext()] terminates on a live
    collection: from position [m_i] it prints the remaining elements, each
    once and in order, and leaves the iterator at the end. *)
Theorem print_all_remaining fuel : forall colls (it : iterator.ConcreteIterator) c,
  colls !! iterator.m_collection it = Some c ->
  iterator.m_i it <= length (iterator.m_data c) ->
  length (iterator.m_data c) - iterator.m_i it < fuel ->
  iterator.print_all fuel colls it
  = Returns (concat (map (fun x => [Num x; Tok Endl])
                         (drop (iterator.m_i it) (iterator.m_data c))),
             {| iterator.m_collection := iterator.m_collection it;
                iterator.m_i := length (iterator.m_data c) |}).
Proof.
  induction fuel as [|fuel IH]; intros colls it c Hc Hle Hfuel; [lia|].
  destruct it as [p i]. simpl in *.
  unfold iterator.getNext, iterator.hasMore. simpl. rewrite Hc.
  destruct (decide (i < length (iterator.m_data c))) as [Hlt|Hge].
  - rewrite bool_decide_eq_true_2 by done.
    destruct (lookup_lt_is_Some_2 _ _ Hlt) as [x Hx]. rewrite Hx.
    rewrite (IH colls _ c) by (simpl; try done; lia). simpl.
    by rewrite (drop_S _ _ _ Hx).
  - rewrite bool_decide_eq_false_2 by done.
    assert (i = length (iterator.m_data c)) as -> by lia.
    by rewrite drop_all.
Qed.

Lemma print_all_remaining_witness :
  iterator.print_all 8 collections_demo (iterator.createIterator 1)
  = Returns (concat (map (fun x => [Num x; Tok Endl])
                         (drop 0 [1; 2; 3; 4; 5; 6; 7]%Z)),
             {| iterator.m_collection := 1%N; iterator.m_i := 7 |}).
Proof.
  apply (print_all_remaining 8 collections_demo (iterator.createIterator 1)
           {| iterator.m_data := [1; 2; 3; 4; 5; 6; 7]%Z |}).
  - reflexivity.
  - simpl. lia.
  - simpl. lia.
Defined.

(** ** Memento *)

Lemma play_lines_S d n :
  play_lines d (S n)
  = [Tok (Str "play : "); Num d; Tok Endl] ++ play_lines (d + 1) n.
Proof.
  unfold play_lines. change (seq 0 (S n)) with (0 :: seq 1 n).
  rewrite map_cons, concat_cons. change (Z.of_nat 0) with 0%Z.
  rewrite Z.add_0_r. f_equal.
  rewrite <- seq_shift, map_map. f_equal. apply map_ext. intros k.
  replace (d + Z.of_nat (S k))%Z with (d + 1 + Z.of_nat k)%Z by lia. done.
Qed.

Lemma plays_ok n : forall g,
  (memento.originator_m_data g + Z.of_nat n <= memento.INT_MAX)%Z ->
  memento.plays n g
  = Some (play_lines (memento.originator_m_data g) n,
          {| memento.originator_m_data :=
               (memento.originator_m_data g + Z.of_nat n)%Z |}).
Proof.
  induction n as [|n IH]; intros [d] Hd; simpl in *.
  - by rewrite Z.add_0_r.
  - unfold memento.play. simpl.
    destruct (decide (d = memento.INT_MAX)) as [->|_]; [lia|].
    rewrite IH by (simpl; lia). simpl. rewrite play_lines_S.
    do 3 f_equal. lia.
Qed.

(** X11.  [n] calls of [GameOriginator::play] print the counter values
    [d], [d+1], ..., [d+n-1] and leave the counter at [d+n], as long as the
    counter stays an [int]; a call at the largest [int] is undefined, so a
    run that would pass it is. *)
Theorem plays_count_up n (g : memento.GameOriginator) :
  (memento.originator_m_data g <= memento.INT_MAX)%Z ->
  ((memento.originator_m_data g + Z.of_nat n <= memento.INT_MAX)%Z ->
   memento.plays n g
   = Some (play_lines (memento.originator_m_data g) n,
           {| memento.originator_m_data :=
                (memento.originator_m_data g + Z.of_nat n)%Z |})) /\
  ((memento.originator_m_data g + Z.of_nat n > memento.INT_MAX)%Z ->
   memento.plays n g = None).
Proof.
  intros Hint. split; [apply plays_ok|].
  revert g Hint. induction n as [|n IH]; intros [d] Hint Hover; simpl in *;
    [lia|].
  unfold memento.play. simpl.
  destruct (decide (d = memento.INT_MAX)) as [|Hne]; [done|].
  rewrite IH; [done | simpl; lia | simpl; lia].
Qed.

Lemma plays_count_up_witness :
  ((0 + Z.of_nat 3 <= memento.INT_MAX)%Z ->
   memento.plays 3 {| memento.originator_m_data := 0 |}
   = Some (play_lines 0 3,
           {| memento.originator_m_data := (0 + Z.of_nat 3)%Z |})) /\
  ((0 + Z.of_nat 3 > memento.INT_MAX)%Z ->
   memento.plays 3 {| memento.originator_m_data := 0 |} = None).
Proof.
  apply (plays_count_up 3 {| memento.originator_m_data := 0 |}).
  vm_compute. discriminate.
Defined.

(** X12.  Saving the game into the caretaker, playing any number of times
    and restoring from [undo] brings the game back to the saved counter
    and the caretaker back to the history it had, whatever was played in
    between. *)
Theorem checkpoint_rollback n (history : memento.GameCaretaker)
  (game : memento.GameOriginator) :
  (memento.originator_m_data game + Z.of_nat n <= memento.INT_MAX)%Z ->
  memento.checkpoint_plays_rollback n history game
  = Some (play_lines (memento.originator_m_data game) n, history, game).
Proof.
  intros Hd. unfold memento.checkpoint_plays_rollback.
  rewrite (plays_ok n game Hd). by destruct history, game.
Qed.

Lemma checkpoint_rollback_witness :
  memento.checkpoint_plays_rollback 3 {| memento.m_history := [] |}
    {| memento.originator_m_data := 0 |}
  = Some (play_lines 0 3, {| memento.m_history := [] |},
          {| memento.originator_m_data := 0 |}).
Proof.
  apply (checkpoint_rollback 3 {| memento.m_history := [] |}
           {| memento.originator_m_data := 0 |}).
  vm_compute. discriminate.
Defined.

(** ** Flyweight *)

Lemma getCat_loop_found objs v t p :
  flyweight.getCat_loop objs v t = Some (Some p) ->
  p ∈ v /\ objs !! p = Some t.
Proof.
  induction v as [|q v IH]; simpl; [done|].
  destruct (objs !! q) as [tq|] eqn:Hq; [|done].
  destruct (decide (tq = t)) as [->|Hne].
  - intros [= ->]. split; [apply list_elem_of_here | done].
  - intros H. destruct (IH H) as [Hin Hp].
    split; [by apply list_elem_of_further | done].
Qed.

Lemma getCat_loop_not_found objs v t :
  flyweight.getCat_loop objs v t = Some None ->
  Forall (fun q => exists tq, objs !! q = Some tq /\ tq <> t) v.
Proof.
  induction v as [|q v IH]; simpl; [constructor|].
  destruct (objs !! q) as [tq|] eqn:Hq; [|done].
  destruct (decide (tq = t)) as [->|Hne]; [done|].
  intros H. constructor; [by exists tq | by apply IH].
Qed.

Lemma getCat_loop_live objs v t (ts : list string) :
  Forall2 (fun p tp => objs !! p = Some tp) v ts ->
  exists r, flyweight.getCat_loop objs v t = Some r.
Proof.
  induction 1 as [|p tp v ts Hp _ IH]; simpl; [by eexists|].
  rewrite Hp. destruct (decide (tp = t)); [by eexists | done].
Qed.

(** The textures of the cats that a search passed are still not [t] after
    a cat was created at a fresh address, and the search ends on the new
    cat. *)
Lemma getCat_loop_after_new objs v t a :
  objs !! a = None ->
  flyweight.getCat_loop objs v t = Some None ->
  flyweight.getCat_loop (<[a:=t]> objs) (v ++ [a]) t = Some (Some a).
Proof.
  intros Ha. induction v as [|q v IH]; simpl.
  - intros _. rewrite lookup_insert_eq. by destruct (decide (t = t)).
  - destruct (objs !! q) as [tq|] eqn:Hq; [|done].
    destruct (decide (tq = t)) as [->|Hne]; [done|].
    intros H. rewrite lookup_insert_ne by congruence. rewrite Hq.
    destruct (decide (tq = t)); [done|]. by apply IH.
Qed.

Lemma getCat_inv a f t p f' :
  flyweight.getCat a f t = Some (p, f') ->
  (flyweight.getCat_loop (flyweight.cats f) (flyweight.m_cats f) t
   = Some (Some p) /\ f' = f) \/
  (flyweight.getCat_loop (flyweight.cats f) (flyweight.m_cats f) t
   = Some None /\ p = a /\ a <> nullptr /\ flyweight.cats f !! a = None /\
   f' = {| flyweight.cats := <[a:=t]> (flyweight.cats f);
           flyweight.m_cats := flyweight.m_cats f ++ [a] |}).
Proof.
  unfold flyweight.getCat.
  destruct (flyweight.getCat_loop _ _ t) as [[q|]|] eqn:Hl; [| |done].
  - intros [= -> ->]. by left.
  - destruct (decide (a = nullptr)); [done|].
    destruct (flyweight.cats f !! a) eqn:Ha; [done|].
    intros [= -> <-]. by right.
Qed.

(** X13.  [CatFactory::getCat] hands out a cat of the texture asked for,
    keeps it in the factory, leaves every existing cat as it is, and gives
    that same cat again on every later request for this texture, without
    creating another one. *)
Theorem getCat_shares a (f : flyweight.CatFactory) t p f' :
  flyweight.getCat a f t = Some (p, f') ->
  flyweight.cats f' !! p = Some t /\
  p ∈ flyweight.m_cats f' /\
  flyweight.cats f ⊆ flyweight.cats f' /\
  (forall a', flyweight.getCat a' f' t = Some (p, f')).
Proof.
  intros H.
  destruct (getCat_inv a f t p f' H)
    as [[Hl ->]|(Hl & -> & Hn & Ha & ->)].
  - destruct (getCat_loop_found _ _ _ _ Hl) as [Hin Hp].
    split; [done|]. split; [done|]. split; [done|].
    intros a'. unfold flyweight.getCat. by rewrite Hl.
  - simpl. split; [apply lookup_insert_eq|].
    split; [apply elem_of_app; right; apply list_elem_of_here|].
    split; [by apply insert_subseteq|].
    intros a'. unfold flyweight.getCat. simpl.
    by rewrite (getCat_loop_after_new _ _ _ _ Ha Hl).
Qed.

Lemma getCat_shares_witness :
  flyweight.cats factory_demo !! 1%N = Some "black" /\
  1%N ∈ flyweight.m_cats factory_demo /\
  flyweight.cats factory_demo ⊆ flyweight.cats factory_demo /\
  (forall a', flyweight.getCat a' factory_demo "black"
              = Some (1%N, factory_demo)).
Proof.
  apply (getCat_shares 9%N factory_demo "black" 1%N factory_demo).
  reflexivity.
Defined.

(** X14.  Requests for two different textures are answered with two
    different cats. *)
Theorem getCat_distinct_textures a1 a2 (f f1 f2 : flyweight.CatFactory)
  t1 t2 p1 p2 :
  flyweight.getCat a1 f t1 = Some (p1, f1) ->
  flyweight.getCat a2 f1 t2 = Some (p2, f2) ->
  t1 <> t2 -> p1 <> p2.
Proof.
  intros H1 H2 Hne ->.
  assert (Hp1 : flyweight.cats f1 !! p2 = Some t1).
  { destruct (getCat_inv _ _ _ _ _ H1) as [[Hl ->]|(Hl & -> & _ & _ & ->)].
    - by destruct (getCat_loop_found _ _ _ _ Hl).
    - simpl. apply lookup_insert_eq. }
  assert (Hsub : flyweight.cats f1 ⊆ flyweight.cats f2).
  { destruct (getCat_inv _ _ _ _ _ H2) as [[_ ->]|(_ & _ & _ & Ha & ->)];
      [done|]. simpl. by apply insert_subseteq. }
  assert (Hp2 : flyweight.cats f2 !! p2 = Some t2).
  { destruct (getCat_inv _ _ _ _ _ H2) as [[Hl ->]|(Hl & -> & _ & _ & ->)].
    - by destruct (getCat_loop_found _ _ _ _ Hl).
    - simpl. apply lookup_insert_eq. }
  pose proof (lookup_weaken _ _ _ _ Hp1 Hsub). congruence.
Qed.

Lemma getCat_distinct_textures_witness : 1%N <> 2%N.
Proof.
  apply (getCat_distinct_textures 8%N 9%N factory_demo factory_demo
           factory_demo "black" "white" 1%N 2%N).
  - reflexivity.
  - reflexivity.
  - discriminate.
Defined.

(** X15.  A factory whose cats are live and of pairwise different textures
    answers every request, given a fresh address for the cat it may have
    to create, and stays such a factory: it never holds two cats of one
    texture. *)
Theorem getCat_keeps_one_cat_per_texture a (f : flyweight.CatFactory) t :
  factory_ok f ->
  a <> nullptr -> flyweight.cats f !! a = None ->
  exists p f', flyweight.getCat a f t = Some (p, f') /\ factory_ok f'.
Proof.
  intros (ts & Hts & Hnd) Hn Ha.
  destruct (getCat_loop_live _ _ t _ Hts) as [[p|] Hl].
  - exists p, f. unfold flyweight.getCat. rewrite Hl.
    split; [done|]. by exists ts.
  - exists a, {| flyweight.cats := <[a:=t]> (flyweight.cats f);
                 flyweight.m_cats := flyweight.m_cats f ++ [a] |}.
    unfold flyweight.getCat. rewrite Hl, Ha.
    destruct (decide (a = nullptr)); [done|]. split; [done|].
    exists (ts ++ [t]). simpl. split.
    + apply Forall2_app.
      * eapply Forall2_impl; [exact Hts|]. intros q tq Hq. simpl in Hq.
        rewrite lookup_insert_ne by congruence. done.
      * constructor; [apply lookup_insert_eq | constructor].
    + apply NoDup_app. split; [done|]. split; [|apply NoDup_singleton].
      intros tq Hin Htq. apply list_elem_of_singleton in Htq as ->.
      apply list_elem_of_lookup_1 in Hin as [i Hi].
      destruct (Forall2_lookup_r _ _ _ _ _ Hts Hi) as (q & Hqi & Hq).
      pose proof (getCat_loop_not_found _ _ _ Hl) as Hall.
      rewrite Forall_forall in Hall.
      destruct (Hall q (list_elem_of_lookup_2 _ _ _ Hqi)) as (tq & Hq' & Hne).
      simpl in Hq. congruence.
Qed.

Lemma factory_demo_ok : factory_ok factory_demo.
Proof.
  exists ["black"; "white"]. split.
  - repeat constructor.
  - apply (bool_decide_unpack (NoDup ["black"; "white"])). vm_compute. exact I.
Qed.

Lemma getCat_keeps_one_cat_per_texture_witness :
  exists p f', flyweight.getCat 3 factory_demo "grey" = Some (p, f')
               /\ factory_ok f'.
Proof.
  apply (getCat_keeps_one_cat_per_texture 3%N factory_demo "grey").
  - apply factory_demo_ok.
  - discriminate.
  - reflexivity.
Defined.

(** ** Chain of responsibility *)

(** X16.  On a chain of live handlers that ends in a null [m_next],
    [handle] returns and has printed the line of every concrete handler of
    the chain, in chain order; a [BaseHandler] prints nothing and the
    request [i] plays no part. *)
Theorem handle_along_chain hs p cs :
  chain.chain_at hs p cs ->
  forall fuel i, length cs <= fuel ->
    chain.handle fuel hs p i
    = Returns (concat (map chain.handler_line cs)).
Proof.
  induction 1 as [p o Hp Hnext|p o cs Hp Hnext _ IH]; intros fuel i Hfuel;
    (destruct fuel as [|fuel]; [simpl in Hfuel; lia|]); simpl; rewrite Hp.
  - rewrite Hnext. destruct (decide (nullptr <> nullptr)); [done|].
    destruct (chain.class_of o); simpl; by rewrite ?app_nil_r.
  - destruct (decide (nullptr <> chain.m_next o)) as [|Hnn];
      [|exfalso; apply Hnn; congruence].
    rewrite IH by (simpl in Hfuel; lia).
    by destruct (chain.class_of o).
Qed.

Lemma handle_along_chain_witness :
  chain.chain_at handlers_demo 1
    [chain.BaseHandler; chain.ConcreteHandler1; chain.ConcreteHandler2] /\
  forall fuel i, 3 <= fuel ->
    chain.handle fuel handlers_demo 1 i
    = Returns [Tok (Str "handler1"); Tok Endl; Tok (Str "handler2"); Tok Endl].
Proof.
  assert (Hc : chain.chain_at handlers_demo 1
                 [chain.BaseHandler; chain.ConcreteHandler1;
                  chain.ConcreteHandler2]).
  { apply (chain.chain_next handlers_demo 1%N
             {| chain.class_of := chain.BaseHandler; chain.m_next := 2%N |});
      [reflexivity | discriminate |].
    apply (chain.chain_next handlers_demo 2%N
             {| chain.class_of := chain.ConcreteHandler1;
                chain.m_next := 3%N |});
      [reflexivity | discriminate |].
    apply (chain.chain_last handlers_demo 3%N
             {| chain.class_of := chain.ConcreteHandler2;
                chain.m_next := nullptr |});
      reflexivity. }
  split; [exact Hc | exact (handle_along_chain handlers_demo 1%N _ Hc)].
Defined.


